(** * AXIS appraisal assistant: the text-to-evidence engine of [axis_app.py]

    A shallow embedding of the heuristic core of [src/axis_app.py]
    (sentence segmentation, sectionization, the pattern bank, the
    knowledge-base matcher and the two scorers), followed by the
    properties of that code.

    Text is modelled as a sequence of 8-bit characters read as ASCII; a
    character outside ASCII stands as the bytes of its UTF-8 encoding,
    each of which is neither a letter, a digit, a space nor a line break,
    and has no case.  The character classes below are those of the
    [regex] module on ASCII text.  On other text that module knows more:
    under [re.I] the long s (U+017F) and the Kelvin sign (U+212A) match
    [s] and [k], [\s] holds further white space such as U+00A0, and [\w]
    holds the letters of every script.  A property that rests on the
    exact extent of a class is therefore stated for ASCII text
    ([is_ascii]). *)

From Stdlib Require Import Ascii String List Bool Arith Lia Permutation Sorted.
Import ListNotations.
Open Scope string_scope.
Open Scope list_scope.
Open Scope nat_scope.

Set Implicit Arguments.

(** ** Characters and Python [str] primitives *)

Definition str := list ascii.

(** A string literal of the source. *)
Definition lit (s : string) : str := list_ascii_of_string s.

Module Char.

Definition code (c : ascii) : nat := nat_of_ascii c.

Definition between (lo hi : nat) (c : ascii) : bool :=
  (lo <=? code c) && (code c <=? hi).

Definition is_upper (c : ascii) : bool := between 65 90 c.
Definition is_lower (c : ascii) : bool := between 97 122 c.
Definition is_alpha (c : ascii) : bool := is_upper c || is_lower c.
Definition is_digit (c : ascii) : bool := between 48 57 c.

(** [\w] of the regex engine. *)
Definition is_word (c : ascii) : bool :=
  is_alpha c || is_digit c || (code c =? 95).

(** [\s] of the regex engine: tab, LF, VT, FF, CR and space. *)
Definition is_space (c : ascii) : bool :=
  between 9 13 c || (code c =? 32).

(** [str.isspace], used by [str.strip]: [\s] and the separators FS, GS, RS, US. *)
Definition isspace (c : ascii) : bool :=
  is_space c || between 28 31 c.

(** The characters at which [str.splitlines] breaks (CR LF is handled there). *)
Definition is_linebreak (c : ascii) : bool :=
  between 10 13 c || between 28 30 c.

Definition to_lower (c : ascii) : ascii :=
  if is_upper c then ascii_of_nat (code c + 32) else c.

Definition to_upper (c : ascii) : ascii :=
  if is_lower c then ascii_of_nat (code c - 32) else c.

Definition eqb_ci (a b : ascii) : bool :=
  Ascii.eqb (to_lower a) (to_lower b).

End Char.

Module Str.

Fixpoint eqb (a b : str) : bool :=
  match a, b with
  | [], [] => true
  | x :: a', y :: b' => Ascii.eqb x y && eqb a' b'
  | _, _ => false
  end.

(** [s.lower()] *)
Definition lower (s : str) : str := map Char.to_lower s.

(** [s.title()]: a letter that follows a letter is lowered, any other
    letter is raised. *)
Fixpoint title_from (prev_cased : bool) (s : str) : str :=
  match s with
  | [] => []
  | c :: s' =>
      (if prev_cased then Char.to_lower c else Char.to_upper c)
        :: title_from (Char.is_alpha c) s'
  end.

Definition title (s : str) : str := title_from false s.

(** [s.lstrip()], [s.rstrip()], [s.strip()] *)
Fixpoint lstrip (s : str) : str :=
  match s with
  | c :: s' => if Char.isspace c then lstrip s' else s
  | [] => []
  end.

Fixpoint rstrip (s : str) : str :=
  match s with
  | [] => []
  | c :: s' =>
      match rstrip s' with
      | [] => if Char.isspace c then [] else [c]
      | t => c :: t
      end
  end.

Definition strip (s : str) : str := rstrip (lstrip s).

(** [s.startswith(p)] *)
Fixpoint startswith (p s : str) : bool :=
  match p, s with
  | [], _ => true
  | x :: p', y :: s' => Ascii.eqb x y && startswith p' s'
  | _ :: _, [] => false
  end.

(** [sub in s] *)
Fixpoint contains (sub s : str) : bool :=
  startswith sub s ||
  match s with
  | [] => false
  | _ :: s' => contains sub s'
  end.

(** [sep.join(parts)] *)
Fixpoint join (sep : str) (parts : list str) : str :=
  match parts with
  | [] => []
  | [p] => p
  | p :: rest => p ++ sep ++ join sep rest
  end.

(** [text.splitlines()]: the lines without their terminators; CR LF is
    one terminator, and a terminator at the very end opens no line. *)
Fixpoint splitlines_from (cur : str) (s : str) : list str :=
  match s with
  | [] => match cur with [] => [] | _ => [rev cur] end
  | c :: s' =>
      if Char.is_linebreak c then
        match s' with
        | d :: s'' =>
            if (Char.code c =? 13) && (Char.code d =? 10)
            then rev cur :: splitlines_from [] s''
            else rev cur :: splitlines_from [] s'
        | [] => [rev cur]
        end
      else splitlines_from (c :: cur) s'
  end.

Definition splitlines (s : str) : list str := splitlines_from [] s.

(** The order of [str] comparison: lexicographic on character codes. *)
Fixpoint leb (a b : str) : bool :=
  match a, b with
  | [], _ => true
  | _ :: _, [] => false
  | x :: a', y :: b' =>
      if Char.code x <? Char.code y then true
      else if Char.code y <? Char.code x then false
      else leb a' b'
  end.

(** [a or b] on strings: the empty string is falsy. *)
Definition or_else (a b : str) : str :=
  match a with [] => b | _ => a end.

End Str.

(** [x is a contiguous stretch of s] *)
Definition infix (x s : str) : Prop := exists pre post, s = pre ++ x ++ post.

(** ** The regular expressions of the source

    A pattern of the source is written as its syntax tree; the matcher is
    the backtracking matcher of Python's [regex] module restricted to the
    constructs the program uses: leftmost match, alternatives tried in
    order, greedy repetition. *)

Module Re.

(** An item of a bracketed character set. *)
Inductive item : Type :=
| IChar (c : ascii)            (* a character *)
| IRange (lo hi : ascii)       (* lo-hi *)
| ISpace.                      (* \s *)

Inductive regex : Type :=
| Eps                          (* the empty pattern *)
| Chr (c : ascii)              (* a literal character *)
| Cls (items : list item)      (* [...] and \s *)
| Dot                          (* . : any character but a line feed *)
| Seq (r1 r2 : regex)
| Alt (r1 r2 : regex)          (* r1|r2 *)
| Star (r : regex)             (* r*, greedy *)
| WordB                        (* \b *)
| Behind (items : list item)   (* (?<=[...]) *)
| Ahead (items : list item).   (* (?=[...]) *)

(** r? and r+, both greedy. *)
Definition Opt (r : regex) : regex := Alt r Eps.
Definition Plus (r : regex) : regex := Seq r (Star r).

(** A run of literal characters; also what [re.escape(s)] compiles to. *)
Fixpoint Lit (s : str) : regex :=
  match s with
  | [] => Eps
  | [c] => Chr c
  | c :: s' => Seq (Chr c) (Lit s')
  end.

Definition L (s : string) : regex := Lit (lit s).

(** r1|r2|...|rn; the compiled form of an empty list is the empty pattern. *)
Fixpoint alts (rs : list regex) : regex :=
  match rs with
  | [] => Eps
  | [r] => r
  | r :: rs' => Alt r (alts rs')
  end.

Fixpoint seqs (rs : list regex) : regex :=
  match rs with
  | [] => Eps
  | [r] => r
  | r :: rs' => Seq r (seqs rs')
  end.

(** A compiled pattern: the tree and the IGNORECASE flag. *)
Record pattern : Type := compile { tree : regex; ignorecase : bool }.

Definition chr_match (ic : bool) (c x : ascii) : bool :=
  if ic then Char.eqb_ci c x else Ascii.eqb c x.

Definition in_range (lo hi x : ascii) : bool :=
  (Char.code lo <=? Char.code x) && (Char.code x <=? Char.code hi).

Definition item_match (ic : bool) (it : item) (x : ascii) : bool :=
  match it with
  | IChar c => chr_match ic c x
  | IRange lo hi =>
      in_range lo hi x ||
      (ic && (in_range lo hi (Char.to_lower x) || in_range lo hi (Char.to_upper x)))
  | ISpace => Char.is_space x
  end.

Definition cls_match (ic : bool) (items : list item) (x : ascii) : bool :=
  existsb (fun it => item_match ic it x) items.

Definition word_opt (c : option ascii) : bool :=
  match c with Some x => Char.is_word x | None => false end.

(** [rmatch ic r prev s k]: match [r] at the front of [s], where [prev] is
    the character before [s] in the searched text, then run the rest of
    the pattern [k] on what is left; the result is the text left after
    the whole match. *)
Fixpoint rmatch (ic : bool) (r : regex) (prev : option ascii) (s : str)
         (k : option ascii -> str -> option str) {struct r} : option str :=
  match r with
  | Eps => k prev s
  | Chr c =>
      match s with
      | x :: s' => if chr_match ic c x then k (Some x) s' else None
      | [] => None
      end
  | Cls items =>
      match s with
      | x :: s' => if cls_match ic items x then k (Some x) s' else None
      | [] => None
      end
  | Dot =>
      match s with
      | x :: s' => if Char.code x =? 10 then None else k (Some x) s'
      | [] => None
      end
  | Seq r1 r2 => rmatch ic r1 prev s (fun p s' => rmatch ic r2 p s' k)
  | Alt r1 r2 =>
      match rmatch ic r1 prev s k with
      | Some x => Some x
      | None => rmatch ic r2 prev s k
      end
  | Star r' =>
      (fix loop (fuel : nat) (prev : option ascii) (s : str) : option str :=
         match fuel with
         | 0 => k prev s
         | S fuel' =>
             match rmatch ic r' prev s
                     (fun p s' =>
                        if length s' <? length s then loop fuel' p s' else None)
             with
             | Some x => Some x
             | None => k prev s
             end
         end) (length s) prev s
  | WordB =>
      if xorb (word_opt prev) (word_opt (hd_error s)) then k prev s else None
  | Behind items =>
      match prev with
      | Some p => if cls_match ic items p then k prev s else None
      | None => None
      end
  | Ahead items =>
      match s with
      | x :: _ => if cls_match ic items x then k prev s else None
      | [] => None
      end
  end.

(** A match object: the text before the match, [group(0)], the text after. *)
Record rematch : Type := mkmatch { before : str; group0 : str; after : str }.

Fixpoint search_at (ic : bool) (r : regex) (prev : option ascii) (s : str)
  : option rematch :=
  match rmatch ic r prev s (fun _ rest => Some rest) with
  | Some rest => Some (mkmatch [] (firstn (length s - length rest) s) rest)
  | None =>
      match s with
      | [] => None
      | c :: s' =>
          match search_at ic r (Some c) s' with
          | Some m => Some (mkmatch (c :: before m) (group0 m) (after m))
          | None => None
          end
      end
  end.

(** [p.search(s)] *)
Definition search (p : pattern) (s : str) : option rematch :=
  search_at (ignorecase p) (tree p) None s.

(** [bool(p.search(s))] *)
Definition found (p : pattern) (s : str) : bool :=
  match search p s with Some _ => true | None => false end.

Definition last_of (prev : option ascii) (s : str) : option ascii :=
  match rev s with c :: _ => Some c | [] => prev end.

(** [p.split(s)] for a pattern without groups.  A match of no
    characters ends the scan: no pattern this program splits on has one. *)
Fixpoint split_from (fuel : nat) (ic : bool) (r : regex)
         (prev : option ascii) (s : str) : list str :=
  match fuel with
  | 0 => [s]
  | S fuel' =>
      match search_at ic r prev s with
      | Some (mkmatch pre (_ :: _ as m) post) =>
          pre :: split_from fuel' ic r (last_of prev (pre ++ m)) post
      | _ => [s]
      end
  end.

Definition split (p : pattern) (s : str) : list str :=
  split_from (length s) (ignorecase p) (tree p) None s.

(** [re.sub(p, repl, s)], with the same proviso on empty matches. *)
Fixpoint sub_from (fuel : nat) (ic : bool) (r : regex) (repl : str)
         (prev : option ascii) (s : str) : str :=
  match fuel with
  | 0 => s
  | S fuel' =>
      match search_at ic r prev s with
      | Some (mkmatch pre (_ :: _ as m) post) =>
          pre ++ repl ++ sub_from fuel' ic r repl (last_of prev (pre ++ m)) post
      | _ => s
      end
  end.

Definition sub (p : pattern) (repl : str) (s : str) : str :=
  sub_from (length s) (ignorecase p) (tree p) repl None s.

End Re.

(** ** Dictionaries

    A Python [dict] with string keys: an association list in insertion
    order, read at the first entry of a key. *)

Module Dict.
Section Operations.
Variable V : Type.

Definition t := list (str * V).

Fixpoint get (d : t) (k : str) : option V :=
  match d with
  | [] => None
  | (k', v) :: d' => if Str.eqb k' k then Some v else get d' k
  end.

(** [d.get(k, dflt)] *)
Definition get_or (d : t) (k : str) (dflt : V) : V :=
  match get d k with Some v => v | None => dflt end.

(** [k in d] *)
Definition mem (k : str) (d : t) : bool :=
  match get d k with Some _ => true | None => false end.

(** [d.setdefault(k, v)], for its effect on [d] *)
Definition setdefault (d : t) (k : str) (v : V) : t :=
  if mem k d then d else d ++ [(k, v)].

(** [d[k] = f(d[k])], for a key of [d] *)
Fixpoint update (d : t) (k : str) (f : V -> V) : t :=
  match d with
  | [] => []
  | (k', v) :: d' =>
      if Str.eqb k' k then (k', f v) :: d' else (k', v) :: update d' k f
  end.

Definition keys (d : t) : list str := map fst d.

End Operations.
End Dict.

(** ** Utilities (source lines 28-46) *)

Import Re.

Definition SPLIT : pattern :=
  compile
    (Alt (seqs [Behind [IChar "."]; Plus (Cls [ISpace]); Ahead [IRange "A" "Z"; IChar "("]])
         (seqs [Behind [IChar "!"; IChar "?"]; Plus (Cls [ISpace])]))
    false.

(** [\b(w1|...|wn)\b] *)
Definition words (rs : list regex) : regex := seqs [WordB; alts rs; WordB].

Definition SECTION_HEAD : pattern :=
  compile
    (words [L "Abstract"; L "Introduction"; L "Background"; L "Theory"; L "Method";
            L "Methods"; Seq (L "Measure") (Opt (Chr "s"));
            Seq (L "Participant") (Opt (Chr "s")); L "Procedure";
            Seq (L "Result") (Opt (Chr "s")); L "Discussion"; L "Conclusion";
            L "Funding"; L "Acknowledgements"; L "Ethics"])
    true.

(** The separator of ["\n".join]. *)
Definition NL : str := [ascii_of_nat 10].

(** The pattern [\s+] of [sentences]. *)
Definition WS : pattern := compile (Plus (Cls [ISpace])) false.

Definition nonempty (s : str) : bool :=
  match s with [] => false | _ => true end.

(** The variable [clean] of [sentences]: runs of white space become one space. *)
Definition clean_text (text : str) : str := Re.sub WS (lit " ") text.

Definition sentences (text : str) : list str :=
  let clean := clean_text text in
  map Str.strip (filter (fun s => nonempty (Str.strip s)) (Re.split SPLIT clean)).

(** The state of the loop of [sectionize]: the buffers and the open section. *)
Definition sectionize_step (st : Dict.t (list str) * str) (line : str)
  : Dict.t (list str) * str :=
  let '(secs, current) := st in
  let '(secs, current) :=
    match Re.search SECTION_HEAD (Str.strip line) with
    | Some m =>
        let current := Str.title (group0 m) in
        (Dict.setdefault secs current [], current)
    | None => (secs, current)
    end in
  (Dict.update secs current (fun buf => buf ++ [line]), current).

Definition sectionize_init : Dict.t (list str) * str :=
  ([(lit "Full Text", [])], lit "Full Text").

(** The buffers of [sectionize] after the loop over the lines. *)
Definition sectionize_buffers (lines : list str) : Dict.t (list str) :=
  fst (fold_left sectionize_step lines sectionize_init).

Definition sectionize (text : str) : Dict.t str :=
  map (fun kv => (fst kv, Str.join NL (snd kv)))
      (sectionize_buffers (Str.splitlines text)).

(** ** Pattern bank (source lines 57-70) *)

Definition RE_DEF : pattern :=
  compile (words [L "defined as"; L "we define"; L "is defined as"; L "refers to"]) true.

Definition RE_BOUNDARY : pattern :=
  compile (words [L "distinct from"; L "differs from"; L "as opposed to"; L "not merely";
                  L "boundary"; Seq (L "scope condition") (Opt (Chr "s"))]) true.

Definition RE_THEORY : pattern :=
  compile (words [L "model"; L "mechanism";
                  seqs [L "dual"; Opt (Cls [ISpace; IChar "-"]); L "system"; Opt (Chr "s")];
                  L "process model"; L "expected value of control"; L "valuation";
                  L "control theory"]) true.

Definition RE_VALIDITY : pattern :=
  compile (words [L "convergent"; L "discriminant"; L "criterion"; L "predictive";
                  seqs [L "known"; Cls [IChar "-"; IChar " "]; L "groups"];
                  seqs [L "response"; Cls [IChar "-"; IChar " "]; L "process"];
                  L "factor validity"]) true.

Definition RE_RELIAB : pattern :=
  compile (words [L "alpha"; L "cronbach"; L "omega";
                  seqs [L "test"; Opt (Cls [IChar "-"; IChar " "]); L "retest"];
                  L "ICC"]) true.

Definition RE_DESIGN : pattern :=
  compile (words [seqs [L "randomi"; Cls [IChar "s"; IChar "z"]; L "ed"];
                  L "experiment"; L "intervention"; L "longitudinal";
                  seqs [L "cross"; Cls [IChar "-"; IChar " "]; L "sectional"];
                  seqs [L "pre"; Cls [IChar "-"; IChar " "]; L "post"];
                  L "RCT"]) true.

(** [\bfund(ing|ed)|grant|sponsor|conflict of interest|COI\b]: the word
    boundaries bind to the first and the last alternative only. *)
Definition RE_FUND : pattern :=
  compile (alts [seqs [WordB; L "fund"; Alt (L "ing") (L "ed")];
                 L "grant"; L "sponsor"; L "conflict of interest";
                 Seq (L "COI") WordB]) true.

Definition RE_ETHICS : pattern :=
  compile (words [L "IRB"; seqs [L "ethic"; Opt (L "al"); L " committee"];
                  L "approved"; L "consent"]) true.

Definition RE_AIMS : pattern :=
  compile (words [L "aim"; L "objective"; Seq (L "we ") (Alt (L "aim") (L "seek"));
                  L "research question"]) true.

Definition RE_SAMPLING : pattern :=
  compile (words [L "sample"; Seq (L "participant") (Opt (Chr "s")); L "recruit";
                  L "eligibility"; L "inclusion"; L "exclusion"]) true.

Definition RE_CONFOUND : pattern :=
  compile (words [L "confound"; Seq (L "control") (Opt (Alt (L "s") (L "led")));
                  L "covariate"; Seq (L "adjust") (Alt (L "ed") (L "ment"))]) true.

Definition RE_STATS : pattern :=
  compile (words [L "regression"; L "ANOVA";
                  seqs [L "mixed"; Cls [IChar "-"; IChar " "]; L "effects"];
                  L "model"; L "estimat"; L "hypothesis test"; L "assumption"]) true.

Definition RE_PRECISION : pattern :=
  compile (words [L "effect size"; L "confidence interval"; L "CI"; L "standard error";
                  seqs [Chr "p"; Star (Cls [ISpace]); Chr "<"]]) true.

Definition RE_CONCLUSIONS : pattern :=
  compile (words [L "limit"; L "caution"; L "consistent with";
                  L "cannot infer causality"]) true.

Definition RE_ANY : pattern := compile Dot false.

Definition RE_FIT : pattern :=
  compile (words [L "CFI"; L "TLI"; L "RMSEA"; L "SRMR"; L "CFA"; L "factor"]) true.

Definition find_hits (blob : str) (p : pattern) (maxn : nat) : list str :=
  let sents := sentences blob in
  let out := filter (fun s => Re.found p s) sents in
  firstn maxn out.

(** ** Configuration (source lines 48-55)

    [axis.yaml] and [constructs.yaml] are read at start-up; their content
    is a parameter of everything below. *)

Record checklist_item : Type := mkitem {
  id : str;
  label : str;
  guidance : str;
  section_hint : option (list str)    (* the key may be missing *)
}.

Record axis_config : Type := mkaxis {
  axis_items : list checklist_item;
  construct_addendum : list checklist_item
}.

Record construct_node : Type := mkconstruct {
  canonical : list str;
  neighbors : list str;
  subcomponents : list str
}.

Record measure_node : Type := mkmeasure {
  aliases : list str;
  type : str;
  targets : list str
}.

Record knowledge_base : Type := mkkb {
  constructs : Dict.t construct_node;
  measures : Dict.t measure_node
}.

(** ** Knowledge-base matcher (source lines 72-95) *)

(** [rf'\b{re.escape(lbl)}\b'] compiled with [re.I] *)
Definition word_pattern (lbl : str) : pattern :=
  compile (seqs [WordB; Lit lbl; WordB]) true.

(** A Python [set] of strings: its elements without repetition.  The order
    in which a set is iterated is not fixed by the language (it follows
    the hashes, which change from run to run), so [list(v)] is read
    through an enumeration [set_list] of which only [Permutation] is known. *)
Definition set_add (x : str) (v : list str) : list str :=
  if existsb (Str.eqb x) v then v else v ++ [x].

Definition set_mem (x : str) (v : list str) : bool := existsb (Str.eqb x) v.

(** [sorted(l)] on strings *)
Fixpoint insert_sorted (x : str) (l : list str) : list str :=
  match l with
  | [] => [x]
  | y :: l' => if Str.leb x y then x :: l else y :: insert_sorted x l'
  end.

Fixpoint sorted (l : list str) : list str :=
  match l with
  | [] => []
  | x :: l' => insert_sorted x (sorted l')
  end.

(** One entry of the list [detect_measures] returns. *)
Record measure_hit : Type := mkhit {
  measure : str;
  alias : str;
  hit_type : str;
  hit_targets : list str
}.

Section KnowledgeBase.

Variable set_list : list str -> list str.
Variable KB : knowledge_base.

Definition detect_labels_of (blob : str) (found : Dict.t (list str))
           (centry : str * construct_node) : Dict.t (list str) :=
  let '(cname, cnode) := centry in
  let labels := canonical cnode ++ neighbors cnode in
  fold_left
    (fun found lbl =>
       if Re.found (word_pattern lbl) blob
       then Dict.update (Dict.setdefault found cname []) cname (set_add lbl)
       else found)
    labels found.

Definition detect_construct_labels (blob : str) : Dict.t (list str) :=
  let found := fold_left (detect_labels_of blob) (constructs KB) [] in
  map (fun kv => (fst kv, sorted (set_list (snd kv)))) found.

(** The inner loop of [detect_measures]: the first alias that matches. *)
Definition first_alias (blob : str) (mnode : measure_node) : option str :=
  find (fun a => Re.found (word_pattern a) blob) (aliases mnode).

Definition detect_measures (blob : str) : list measure_hit :=
  flat_map
    (fun mentry : str * measure_node =>
       let '(mid, mnode) := mentry in
       match first_alias blob mnode with
       | Some a => [mkhit mid a (type mnode) (targets mnode)]
       | None => []
       end)
    (measures KB).

(** [map_targets]: the measure ids of each target, sorted. *)
Definition map_targets (ms : list measure_hit) : Dict.t (list str) :=
  let buckets :=
    fold_left
      (fun buckets m =>
         fold_left
           (fun buckets t =>
              Dict.update (Dict.setdefault buckets t []) t (set_add (measure m)))
           (hit_targets m) buckets)
      ms [] in
  map (fun kv => (fst kv, sorted (set_list (snd kv)))) buckets.

End KnowledgeBase.

(** ** Proposals *)

Inductive score : Type := Yes | No | Unclear | NA.

(** The dictionary a scorer returns; [warnings] is a key of the
    "measures align" result only. *)
Record proposal : Type := mkproposal {
  proposed : score;
  evidence : list str;
  warnings : option (list str)
}.

Definition nonempty_list {A : Type} (l : list A) : bool :=
  match l with [] => false | _ => true end.

Definition yes_or (negative : score) (hits : list str) : score :=
  match hits with [] => negative | _ => Yes end.

(** [label_has phrase lbl]: the test [phrase in label.lower()] of the scorers *)
Definition label_has (phrase : string) (lbl : str) : bool :=
  Str.contains (lit phrase) (Str.lower lbl).

(** The texts of the hinted sections (the empty string for a name the map
    lacks, no hint when the key is missing), joined by single spaces. *)
Definition hint_text (item : checklist_item) (sections : Dict.t str) : str :=
  let hints := match section_hint item with Some hs => hs | None => [] end in
  Str.join (lit " ") (map (fun h => Dict.get_or sections h []) hints).

Definition section (sections : Dict.t str) (name : string) : str :=
  Dict.get_or sections (lit name) [].

(** ** AXIS scorer (source lines 98-151) *)

Definition propose_axis_score (item : checklist_item) (sections : Dict.t str)
  : proposal :=
  let sec_text := hint_text item sections in
  let label := label item in
  if label_has "aims" label then
    let hits := find_hits (Str.or_else sec_text (section sections "Full Text")) RE_AIMS 6 in
    mkproposal (yes_or Unclear hits) hits None
  else if label_has "design appropriate" label then
    let hits := find_hits sec_text RE_DESIGN 6 in
    mkproposal (yes_or Unclear hits) hits None
  else if label_has "sampling frame" label then
    let hits := find_hits sec_text RE_SAMPLING 6 in
    mkproposal (yes_or Unclear hits) hits None
  else if label_has "validity" label then
    let hits := find_hits sec_text RE_VALIDITY 6 in
    mkproposal (yes_or Unclear hits) hits None
  else if label_has "reliability" label then
    let hits := find_hits sec_text RE_RELIAB 6 in
    mkproposal (yes_or Unclear hits) hits None
  else if label_has "confounding" label then
    let hits := find_hits sec_text RE_CONFOUND 6 in
    mkproposal (yes_or Unclear hits) hits None
  else if label_has "statistical methods" label then
    let hits := find_hits sec_text RE_STATS 6 in
    mkproposal (yes_or Unclear hits) hits None
  else if label_has "precision" label then
    let hits := find_hits sec_text RE_PRECISION 6 in
    mkproposal (yes_or Unclear hits) hits None
  else if label_has "conclusions justified" label then
    let hits := find_hits (Str.or_else sec_text (section sections "Discussion"))
                          RE_CONCLUSIONS 6 in
    mkproposal (yes_or Unclear hits) hits None
  else if label_has "funding" label then
    let hits := find_hits (section sections "Funding" ++ lit " "
                             ++ section sections "Acknowledgements") RE_FUND 6 in
    mkproposal (yes_or Unclear hits) hits None
  else if label_has "ethical" label then
    let hits := find_hits (section sections "Ethics" ++ lit " "
                             ++ section sections "Method") RE_ETHICS 6 in
    mkproposal (yes_or NA hits) hits None
  else
    let hits := find_hits (Str.or_else sec_text (section sections "Full Text")) RE_ANY 6 in
    mkproposal Unclear (firstn 3 hits) None.

(** ** Construct addendum scorer (source lines 153-202) *)

(** [repr] of a string and of a list of strings, as the f-string of the
    "jingle-jangle" rule prints a list of labels. *)
Definition DQUOTE : ascii := ascii_of_nat 34.

Definition hex_digit (n : nat) : ascii :=
  if n <? 10 then ascii_of_nat (48 + n) else ascii_of_nat (87 + n).

Definition repr_char (quote : ascii) (c : ascii) : str :=
  if Ascii.eqb c quote || (Char.code c =? 92) then ["\"%char; c]
  else if Char.code c =? 10 then lit "\n"
  else if Char.code c =? 13 then lit "\r"
  else if Char.code c =? 9 then lit "\t"
  else if (Char.code c <? 32) || (Char.code c =? 127)
       then lit "\x" ++ [hex_digit (Char.code c / 16); hex_digit (Char.code c mod 16)]
       else [c].

Definition repr_str (s : str) : str :=
  let quote : ascii :=
    if existsb (Ascii.eqb "'") s && negb (existsb (Ascii.eqb DQUOTE) s)
    then DQUOTE else "'"%char in
  quote :: flat_map (repr_char quote) s ++ [quote].

Definition repr_list (l : list str) : str :=
  lit "[" ++ Str.join (lit ", ") (map repr_str l) ++ lit "]".

Definition WARN_JINGLE : str := lit "Jingle risk: SC label with Grit-S measure.".

Section ConstructScorer.

Variable set_list : list str -> list str.
Variable KB : knowledge_base.

(** The pattern of the "subcomponents" rule. *)
Definition subcomponent_pattern : pattern :=
  let subs := flat_map (fun centry => subcomponents (snd centry)) (constructs KB) in
  match subs with
  | [] => compile Eps false
  | _ => compile (alts (map Lit subs)) true
  end.

Definition propose_construct_score (citem : checklist_item)
           (sections : Dict.t str) (full : str) : proposal :=
  let hint := Str.or_else (hint_text citem sections) full in
  let label := label citem in
  if label_has "definition" label then
    let hits := find_hits hint RE_DEF 6 in
    mkproposal (yes_or Unclear hits) hits None
  else if label_has "subcomponents" label then
    let hits := find_hits hint subcomponent_pattern 6 in
    mkproposal (yes_or Unclear hits) hits None
  else if label_has "model/theory" label then
    let hits := find_hits hint RE_THEORY 6 in
    mkproposal (yes_or Unclear hits) hits None
  else if label_has "measures align" label then
    let measures := detect_measures KB full in
    let constructs := detect_construct_labels set_list KB full in
    let hits :=
      map (fun m => alias m ++ lit " → " ++ Str.join (lit ", ") (hit_targets m))
          measures in
    let score := match measures with [] => No | _ => Yes end in
    let ops := fold_left (fun ops m => set_add (measure m) ops) measures [] in
    let warn :=
      if Dict.mem (lit "self-control") constructs && set_mem (lit "GritS") ops
      then [WARN_JINGLE] else [] in
    mkproposal score hits (Some warn)
  else if label_has "jingle–jangle" label then
    let constructs := detect_construct_labels set_list KB full in
    let hits := map (fun kv => fst kv ++ lit ": " ++ repr_list (snd kv)) constructs in
    let boundary_hit := Re.found RE_BOUNDARY full in
    let score :=
      if boundary_hit then Yes
      else match constructs with [] => NA | _ => Unclear end in
    mkproposal score hits None
  else if label_has "evidence type supports" label then
    let has_valid := nonempty_list (find_hits full RE_VALIDITY 6) in
    let has_fit := nonempty_list (find_hits full RE_FIT 6) in
    let score := if has_valid || has_fit then Yes else Unclear in
    let ev := find_hits full RE_VALIDITY 3 ++ find_hits full RE_FIT 3 in
    mkproposal score ev None
  else
    mkproposal Unclear [] None.

End ConstructScorer.

(** ** The scoring pipeline (source lines 207-230) *)

Record row : Type := mkrow {
  row_id : str;
  row_label : str;
  row_guidance : str;
  row_proposal : proposal
}.

(** What the upload handler computes from the extracted text [blob]: the
    AXIS proposals and the addendum proposals. *)
Definition run_pipeline (set_list : list str -> list str) (AXIS : axis_config)
           (KB : knowledge_base) (blob : str) : list row * list row :=
  let secs := sectionize blob in
  let axis_proposals :=
    map (fun item =>
           mkrow (id item) (label item) (guidance item)
                 (propose_axis_score item secs))
        (axis_items AXIS) in
  let add_proposals :=
    map (fun citem =>
           mkrow (id citem) (label citem) (guidance citem)
                 (propose_construct_score set_list KB citem secs blob))
        (construct_addendum AXIS) in
  (axis_proposals, add_proposals).

(** ** Notions used to state the properties *)

(** The phrases the two scorers look for in a label, in the order of their
    [if] chains; an item is handled by the rule of the first phrase its
    lowered label contains, and by the default rule when it contains none. *)
Definition axis_phrases : list string :=
  ["aims"; "design appropriate"; "sampling frame"; "validity"; "reliability";
   "confounding"; "statistical methods"; "precision"; "conclusions justified";
   "funding"; "ethical"].

Definition construct_phrases : list string :=
  ["definition"; "subcomponents"; "model/theory"; "measures align";
   "jingle–jangle"; "evidence type supports"].

Definition dispatch (phrases : list string) (lbl : str) : option string :=
  find (fun p => label_has p lbl) phrases.

(** The section vocabulary as the specification lists it. *)
Definition spec_vocabulary : list str :=
  map lit ["Abstract"; "Introduction"; "Background"; "Theory"; "Method"; "Methods";
           "Measures"; "Participants"; "Procedure"; "Results"; "Discussion";
           "Conclusion"; "Funding"; "Acknowledgements"; "Ethics"].

(** The names [SECTION_HEAD] can produce on ASCII text: the vocabulary
    and the three singular forms that its optional plurals allow. *)
Definition code_vocabulary : list str :=
  spec_vocabulary ++ map lit ["Measure"; "Participant"; "Result"].

(** The lowered texts a star-free pattern can match; [None] for a pattern
    with a repetition or a set that is not a list of characters. *)
Definition item_char (it : item) : option ascii :=
  match it with IChar c => Some (Char.to_lower c) | _ => None end.

Fixpoint all_some {A : Type} (l : list (option A)) : option (list A) :=
  match l with
  | [] => Some []
  | Some x :: l' => option_map (cons x) (all_some l')
  | None :: _ => None
  end.

Fixpoint language (r : regex) : option (list str) :=
  match r with
  | Eps | WordB | Behind _ | Ahead _ => Some [[]]
  | Chr c => Some [[Char.to_lower c]]
  | Cls items => option_map (map (fun c => [c])) (all_some (map item_char items))
  | Dot | Star _ => None
  | Seq r1 r2 =>
      match language r1, language r2 with
      | Some l1, Some l2 => Some (flat_map (fun a => map (app a) l2) l1)
      | _, _ => None
      end
  | Alt r1 r2 =>
      match language r1, language r2 with
      | Some l1, Some l2 => Some (l1 ++ l2)
      | _, _ => None
      end
  end.

(** The section under which [sectionize] files each line, in line order. *)
Fixpoint filing_from (st : Dict.t (list str) * str) (lines : list str) : list str :=
  match lines with
  | [] => []
  | line :: rest =>
      let st' := sectionize_step st line in
      snd st' :: filing_from st' rest
  end.

Definition filing (lines : list str) : list str := filing_from sectionize_init lines.

(** Reading the buffers back in line order: each line is taken from the
    front of the buffer it was filed under; the result is defined when
    every named buffer still holds a line and no line is left at the end. *)
Definition all_read (bufs : Dict.t (list str)) : bool :=
  forallb (fun kv : str * list str => negb (nonempty_list (snd kv))) bufs.

Fixpoint read_back (tags : list str) (bufs : Dict.t (list str)) : option (list str) :=
  match tags with
  | [] => if all_read bufs then Some [] else None
  | t :: tags' =>
      match Dict.get bufs t with
      | Some (line :: rest) =>
          option_map (cons line) (read_back tags' (Dict.update bufs t (fun _ => rest)))
      | _ => None
      end
  end.

(** The first element of [l] that satisfies [p], with what precedes it. *)
Definition first_match (p : str -> bool) (l : list str) (a : str) : Prop :=
  exists pre post, l = pre ++ a :: post /\ p a = true /\ forallb (fun x => negb (p x)) pre = true.

(** The texts the AXIS scorer can search for an item: the resolved hint,
    two single sections and two pairs of sections. *)
Definition axis_search_texts (item : checklist_item) (sections : Dict.t str)
  : list str :=
  [hint_text item sections;
   section sections "Full Text";
   section sections "Discussion";
   section sections "Funding" ++ lit " " ++ section sections "Acknowledgements";
   section sections "Ethics" ++ lit " " ++ section sections "Method"].

(** The evidence lines of the "measures align" and "jingle-jangle" rules. *)
Definition measure_line (m : measure_hit) : str :=
  alias m ++ lit " → " ++ Str.join (lit ", ") (hit_targets m).

Definition construct_line (kv : str * list str) : str :=
  fst kv ++ lit ": " ++ repr_list (snd kv).

(** [w] stands in [text] as a whole word: verbatim, with a word boundary
    ([\b]) at each of its two ends. *)
Definition whole_word (w text : str) : Prop :=
  exists pre post,
    text = pre ++ w ++ post /\
    xorb (word_opt (last_of None pre)) (word_opt (hd_error (w ++ post))) = true /\
    xorb (word_opt (last_of None (pre ++ w))) (word_opt (hd_error post)) = true.

(** The white space at the front of a text, and the text after it. *)
Fixpoint skip_spaces (s : str) : str :=
  match s with
  | c :: s' => if Char.is_space c then skip_spaces s' else s
  | [] => []
  end.

(** Normalization by one scan from left to right: a run of white space
    becomes one space; [in_space] tells that the scan is inside a run. *)
Fixpoint collapse_from (in_space : bool) (s : str) : str :=
  match s with
  | [] => []
  | c :: s' =>
      if Char.is_space c
      then if in_space then collapse_from true s' else " "%char :: collapse_from true s'
      else c :: collapse_from false s'
  end.

Definition collapse (s : str) : str := collapse_from false s.

(** [x] is in the set a dictionary of sets holds under the key [k]. *)
Definition filed (d : Dict.t (list str)) (k x : str) : bool :=
  match Dict.get d k with Some v => set_mem x v | None => false end.

(** The section a line opens, if it holds a heading word. *)
Definition heading_of (line : str) : option str :=
  match Re.search SECTION_HEAD (Str.strip line) with
  | Some m => Some (Str.title (group0 m))
  | None => None
  end.

(** The measure entries that have an alias found in the text. *)
Definition measure_matches (blob : str) (mentry : str * measure_node) : bool :=
  existsb (fun a => Re.found (word_pattern a) blob) (aliases (snd mentry)).

(** The construct entries that have a canonical or neighbor label found in
    the text. *)
Definition construct_found (blob : str) (centry : str * construct_node) : bool :=
  existsb (fun lbl => Re.found (word_pattern lbl) blob)
          (canonical (snd centry) ++ neighbors (snd centry)).

(** The lines before the first line that holds a heading word. *)
Fixpoint preamble (lines : list str) : list str :=
  match lines with
  | line :: rest =>
      match heading_of line with
      | None => line :: preamble rest
      | Some _ => []
      end
  | [] => []
  end.

(** The headings of a text, one per line that holds a heading word, in
    line order. *)
Definition headings (lines : list str) : list str :=
  flat_map (fun line => match heading_of line with Some k => [k] | None => [] end)
           lines.



(** The text a hint names in a section map: the texts of the hinted
    sections, the empty text for a name the map lacks, with one space
    between two of them. *)
Fixpoint hinted_text (sections : Dict.t str) (hints : list str) : str :=
  match hints with
  | [] => []
  | [h] => match Dict.get sections h with Some t => t | None => [] end
  | h :: rest =>
      match Dict.get sections h with Some t => t | None => [] end
      ++ " "%char :: hinted_text sections rest
  end.

(** The rules of [propose_axis_score] that search the resolved hint, each
    with its detector. *)
Definition hint_rules : list (string * pattern) :=
  [("aims", RE_AIMS); ("design appropriate", RE_DESIGN);
   ("sampling frame", RE_SAMPLING); ("validity", RE_VALIDITY);
   ("reliability", RE_RELIAB); ("confounding", RE_CONFOUND);
   ("statistical methods", RE_STATS); ("precision", RE_PRECISION);
   ("conclusions justified", RE_CONCLUSIONS)].

(** ** Sample configuration and documents *)

Module Sample.

(** A knowledge base in the shape of [constructs.yaml]. *)
Definition KB : knowledge_base :=
  mkkb
    [(lit "self-control",
      mkconstruct [lit "self-control"; lit "self control"] [lit "willpower"]
                  [lit "inhibition"]);
     (lit "grit", mkconstruct [lit "grit"] [] [])]
    [(lit "BSCS",
      mkmeasure [lit "Brief Self-Control Scale"; lit "BSCS"] (lit "self-report")
                [lit "self-control"]);
     (lit "GritS",
      mkmeasure [lit "Short Grit Scale"; lit "Grit-S"] (lit "self-report")
                [lit "grit"; lit "self-control"])].

(** The same constructs with no subcomponent phrase configured. *)
Definition KB_no_subcomponents : knowledge_base :=
  mkkb
    [(lit "self-control",
      mkconstruct [lit "self-control"; lit "self control"] [lit "willpower"] []);
     (lit "grit", mkconstruct [lit "grit"] [] [])]
    (measures KB).

Definition item (lbl : string) (hint : option (list str)) : checklist_item :=
  mkitem (lit "Q") (lit lbl) (lit "guidance") hint.

(** A document without any section heading word. *)
Definition doc_plain : str :=
  lit "We assessed convergent validity in a randomized experiment.
Cronbach alpha was high.".

(** A section map with a "Method" section and no "Ethics" section. *)
Definition secs_ethics : Dict.t str :=
  [(lit "Full Text", lit "Title");
   (lit "Method",
    lit "Method: participants were students. The study was approved by the IRB.")].

Definition doc_grit : str := lit "Self-control was measured with the Grit-S.".

Definition doc_observed : str := lit "We observed behaviour. It varied.".

(** A document with a line before its first heading. *)
Definition doc_sections : str :=
  lit "A study of grit.
Methods
We ran a survey.
Results
Grit was high.".

Definition doc_jingle : str := lit "We measured self-control with the Grit-S.".

(** A document that holds both aliases of one measure. *)
Definition doc_two_aliases : str :=
  lit "The Grit-S, or Short Grit Scale, was given with the BSCS.".

Definition doc_willpower : str :=
  lit "Self-control, also called willpower, was measured with the Grit-S.
It is distinct from grit.".

(** A checklist in the shape of [axis.yaml]. *)
Definition AXIS : axis_config :=
  mkaxis
    [item "Were the aims clear?" (Some [lit "Abstract"; lit "Introduction"]);
     item "Measurement validity" (Some [lit "Methods"]);
     item "Ethical approval" None]
    [item "Construct definition" None;
     item "Measures align with the construct" None;
     item "Jingle–jangle risk" None].

(** Two orders in which a set may be enumerated. *)
Definition identity (l : list str) : list str := l.
Definition reversed (l : list str) : list str := rev l.

End Sample.

(** * Properties *)

(** ** Strings *)

Lemma Str_eqb_eq (a b : str) : Str.eqb a b = true <-> a = b.
Proof.
  revert b; induction a as [|x a IH]; intros [|y b]; simpl; split;
    try congruence; try reflexivity.
  - intros H. apply andb_true_iff in H as [Hx Hab].
    apply Ascii.eqb_eq in Hx. apply IH in Hab. congruence.
  - intros H. injection H as -> ->.
    rewrite Ascii.eqb_refl. simpl. now apply IH.
Qed.

Lemma Str_eqb_refl (a : str) : Str.eqb a a = true.
Proof. now apply Str_eqb_eq. Qed.

Lemma Str_eqb_neq (a b : str) : Str.eqb a b = false <-> a <> b.
Proof.
  split.
  - intros H E. apply Str_eqb_eq in E. congruence.
  - intros H. destruct (Str.eqb a b) eqn:E; [|reflexivity].
    apply Str_eqb_eq in E. contradiction.
Qed.


Lemma infix_refl (s : str) : infix s s.
Proof. exists [], []. now rewrite app_nil_r. Qed.

Lemma infix_trans (a b c : str) : infix a b -> infix b c -> infix a c.
Proof.
  intros (p1 & q1 & ->) (p2 & q2 & ->).
  exists (p2 ++ p1), (q1 ++ q2). now rewrite !app_assoc.
Qed.

Lemma infix_cons (a s : str) (c : ascii) : infix a s -> infix a (c :: s).
Proof. intros (p & q & ->). now exists (c :: p), q. Qed.

Lemma infix_app_l (a s t : str) : infix a s -> infix a (t ++ s).
Proof. intros (p & q & ->). exists (t ++ p), q. now rewrite app_assoc. Qed.

Lemma infix_app_r (a s t : str) : infix a s -> infix a (s ++ t).
Proof.
  intros (p & q & ->). exists p, (q ++ t). now rewrite <- !app_assoc.
Qed.

Lemma lstrip_infix (s : str) : infix (Str.lstrip s) s.
Proof.
  induction s as [|c s IH]; simpl.
  - apply infix_refl.
  - destruct (Char.isspace c); [now apply infix_cons | apply infix_refl].
Qed.

Lemma rstrip_prefix (s : str) : exists t, s = Str.rstrip s ++ t.
Proof.
  induction s as [|c s [t IH]]; simpl.
  - now exists [].
  - destruct (Str.rstrip s) as [|d r] eqn:E.
    + destruct (Char.isspace c).
      * now exists (c :: s).
      * exists s. reflexivity.
    + exists t. simpl. now rewrite IH at 1.
Qed.

Lemma strip_infix (s : str) : infix (Str.strip s) s.
Proof.
  apply infix_trans with (Str.lstrip s); [|apply lstrip_infix].
  unfold Str.strip. destruct (rstrip_prefix (Str.lstrip s)) as [t Ht].
  exists [], t. simpl. exact Ht.
Qed.

(** ** The matcher *)

Import Re.

(** A successful match hands to its continuation what is left of the
    text, and returns the continuation's answer. *)
Lemma rmatch_continues (ic : bool) (r : regex) :
  forall prev s k x,
    rmatch ic r prev s k = Some x ->
    exists m p rest, s = m ++ rest /\ k p rest = Some x.
Proof.
  induction r as [ |c|items| |r1 IH1 r2 IH2|r1 IH1 r2 IH2|r IH| |items|items];
    intros prev s k x H; simpl in H.
  - now exists [], prev, s.
  - destruct s as [|y s]; [discriminate|].
    destruct (chr_match ic c y); [|discriminate]. now exists [y], (Some y), s.
  - destruct s as [|y s]; [discriminate|].
    destruct (cls_match ic items y); [|discriminate]. now exists [y], (Some y), s.
  - destruct s as [|y s]; [discriminate|].
    destruct (Char.code y =? 10); [discriminate|]. now exists [y], (Some y), s.
  - apply IH1 in H as (m1 & p1 & rest1 & -> & H).
    apply IH2 in H as (m2 & p2 & rest2 & -> & H).
    exists (m1 ++ m2), p2, rest2. now rewrite app_assoc.
  - destruct (rmatch ic r1 prev s k) eqn:E.
    + injection H as ->. now apply IH1 in E.
    + now apply IH2 in H.
  - revert H. generalize (length s) at 1. intros fuel. revert prev s.
    induction fuel as [|fuel IHf]; intros prev s H.
    + now exists [], prev, s.
    + match type of H with
      | match ?e with _ => _ end = _ => destruct e eqn:E
      end.
      * injection H as ->.
        apply IH in E as (m1 & p1 & rest1 & -> & E).
        destruct (length rest1 <? length (m1 ++ rest1)); [|discriminate].
        apply IHf in E as (m2 & p2 & rest2 & -> & E).
        exists (m1 ++ m2), p2, rest2. now rewrite app_assoc.
      * now exists [], prev, s.
  - destruct (xorb _ _); [|discriminate]. now exists [], prev, s.
  - destruct prev as [p|]; [|discriminate].
    destruct (cls_match ic items p); [|discriminate]. now exists [], (Some p), s.
  - destruct s as [|y s]; [discriminate|].
    destruct (cls_match ic items y); [|discriminate]. now exists [], prev, (y :: s).
Qed.

Lemma firstn_app_exact (m rest : str) :
  firstn (length (m ++ rest) - length rest) (m ++ rest) = m.
Proof.
  rewrite length_app.
  replace (length m + length rest - length rest) with (length m + 0) by lia.
  rewrite firstn_app_2. simpl. apply app_nil_r.
Qed.

Lemma rmatch_whole (ic : bool) (r : regex) (prev : option ascii) (s rest : str) :
  rmatch ic r prev s (fun _ rest => Some rest) = Some rest ->
  s = firstn (length s - length rest) s ++ rest.
Proof.
  intros E. apply rmatch_continues in E as (g & p & rest' & Hs & E).
  injection E as ->. rewrite Hs at 1. rewrite Hs, firstn_app_exact. reflexivity.
Qed.

(** A match object splits the searched text in three. *)
Lemma search_at_split (ic : bool) (r : regex) :
  forall s prev m,
    search_at ic r prev s = Some m -> s = before m ++ group0 m ++ after m.
Proof.
  induction s as [|c s IH]; intros prev m H.
  - cbn [search_at] in H.
    destruct (rmatch ic r prev [] _) eqn:E; [|discriminate].
    injection H as <-. cbn [before group0 after app].
    now apply rmatch_whole in E.
  - cbn [search_at] in H.
    destruct (rmatch ic r prev (c :: s) _) eqn:E.
    + injection H as <-. cbn [before group0 after app].
      now apply rmatch_whole in E.
    + destruct (search_at ic r (Some c) s) as [m'|] eqn:E'; [|discriminate].
      injection H as <-. cbn [before group0 after]. simpl. f_equal.
      now apply IH in E'.
Qed.

Lemma search_split (p : pattern) (s : str) (m : rematch) :
  Re.search p s = Some m -> s = before m ++ group0 m ++ after m.
Proof. apply search_at_split. Qed.

(** Every piece [split] returns is a contiguous stretch of the text. *)
Lemma split_from_infix (ic : bool) (r : regex) :
  forall fuel prev s piece,
    In piece (split_from fuel ic r prev s) -> infix piece s.
Proof.
  induction fuel as [|fuel IH]; intros prev s piece H; simpl in H.
  - destruct H as [<-|[]]. apply infix_refl.
  - destruct (search_at ic r prev s) as [[pre [|c g] post]|] eqn:E.
    + destruct H as [<-|[]]. apply infix_refl.
    + apply search_at_split in E. simpl in E.
      destruct H as [<-|H].
      * exists [], (c :: g ++ post). exact E.
      * apply IH in H. rewrite E.
        apply infix_app_l. now apply (infix_app_l (c :: g)).
    + destruct H as [<-|[]]. apply infix_refl.
Qed.

Lemma split_infix (p : pattern) (s piece : str) :
  In piece (Re.split p s) -> infix piece s.
Proof. apply split_from_infix. Qed.

(** ** Sentences and hits *)

Lemma sentences_verbatim (text e : str) :
  In e (sentences text) -> infix e (clean_text text) /\ e <> [].
Proof.
  unfold sentences. intros H.
  apply in_map_iff in H as (piece & <- & H).
  apply filter_In in H as [H Hne].
  split.
  - apply infix_trans with piece; [apply strip_infix | now apply split_infix with SPLIT].
  - intros E. rewrite E in Hne. discriminate.
Qed.

Lemma In_firstn {A : Type} (n : nat) (l : list A) (x : A) :
  In x (firstn n l) -> In x l.
Proof.
  revert l; induction n as [|n IH]; intros [|y l]; simpl; try tauto.
  intros [->|H]; [now left | right; now apply IH].
Qed.

Lemma find_hits_sentences (blob : str) (p : pattern) (maxn : nat) (e : str) :
  In e (find_hits blob p maxn) ->
  In e (sentences blob) /\ Re.found p e = true.
Proof.
  unfold find_hits. intros H.
  apply In_firstn in H. now apply filter_In in H.
Qed.

Lemma find_hits_verbatim (blob : str) (p : pattern) (maxn : nat) (e : str) :
  In e (find_hits blob p maxn) -> infix e (clean_text blob).
Proof.
  intros H. apply find_hits_sentences in H as [H _].
  now apply sentences_verbatim in H.
Qed.

(** ** Dispatch on the label *)

Ltac label_cases H :=
  unfold dispatch, axis_phrases, construct_phrases in H; cbn [find] in H;
  repeat match type of H with
         | context [label_has ?p ?l] =>
             destruct (label_has p l) eqn:?; cbv iota in H; try discriminate H
         end.

(** ** C1: resolution of the section hint *)

Lemma hint_text_no_hint (item : checklist_item) (sections : Dict.t str) :
  section_hint item = None \/ section_hint item = Some [] ->
  hint_text item sections = [].
Proof. unfold hint_text. now intros [-> | ->]. Qed.

Lemma sentences_empty : sentences [] = [].
Proof. reflexivity. Qed.

Lemma find_hits_empty (p : pattern) (maxn : nat) : find_hits [] p maxn = [].
Proof. unfold find_hits. rewrite sentences_empty. simpl. now destruct maxn. Qed.

(** C1, as the specification states it, fails: an item handled by the
    "validity", "design appropriate" or "reliability" rule and without a
    usable hint is scored on the empty text, although the document has no
    section heading and its "Full Text" section holds matching sentences. *)
Lemma hint_fallback_counterexample :
  let secs := sectionize Sample.doc_plain in
  Dict.keys secs = [lit "Full Text"] /\
  propose_axis_score (Sample.item "Measurement validity" None) secs
    = mkproposal Unclear [] None /\
  find_hits (section secs "Full Text") RE_VALIDITY 6
    = [lit "We assessed convergent validity in a randomized experiment."] /\
  propose_axis_score (Sample.item "Study design appropriate" (Some [])) secs
    = mkproposal Unclear [] None /\
  find_hits (section secs "Full Text") RE_DESIGN 6
    = [lit "We assessed convergent validity in a randomized experiment."] /\
  propose_axis_score (Sample.item "Reliability of instruments" (Some [lit "Methods"])) secs
    = mkproposal Unclear [] None /\
  find_hits (section secs "Full Text") RE_RELIAB 6 = [lit "Cronbach alpha was high."].
Proof. vm_compute. repeat split. Qed.

Lemma hint_text_resolves (item : checklist_item) (sections : Dict.t str)
      (hs : list str) :
  section_hint item = Some hs -> hint_text item sections = hinted_text sections hs.
Proof.
  unfold hint_text. intros ->.
  induction hs as [|h hs IH]; [reflexivity|].
  destruct hs as [|h' hs]; [reflexivity|].
  cbn [map Str.join hinted_text] in *. unfold Dict.get_or at 1.
  rewrite <- IH. reflexivity.
Qed.

(** C1 (amended): the hint of an item resolves to the texts of its hinted
    sections, the empty text for a name the section map lacks, joined by
    single spaces; it is empty when the hint list is missing or empty.
    When the resolved text is not empty, every rule that uses the hint
    searches it.  When it is empty, the "aims" rule and the default rule
    search the "Full Text" section and the "conclusions justified" rule
    searches the "Discussion" section, while the "design appropriate",
    "sampling frame", "validity", "reliability", "confounding",
    "statistical methods" and "precision" rules search nothing and answer
    Unclear without evidence, whatever "Full Text" holds. *)
Theorem hint_fallback_by_rule (item : checklist_item) (sections : Dict.t str) :
  (forall hs, section_hint item = Some hs ->
     hint_text item sections = hinted_text sections hs) /\
  (section_hint item = None \/ section_hint item = Some [] ->
   hint_text item sections = []) /\
  (hint_text item sections <> [] ->
   (forall phrase p,
      In (phrase, p) hint_rules ->
      dispatch axis_phrases (label item) = Some phrase ->
      propose_axis_score item sections =
        let hits := find_hits (hint_text item sections) p 6 in
        mkproposal (yes_or Unclear hits) hits None) /\
   (dispatch axis_phrases (label item) = None ->
    propose_axis_score item sections =
      let hits := find_hits (hint_text item sections) RE_ANY 6 in
      mkproposal Unclear (firstn 3 hits) None)) /\
  (hint_text item sections = [] ->
   (dispatch axis_phrases (label item) = Some "aims" ->
    propose_axis_score item sections =
      let hits := find_hits (section sections "Full Text") RE_AIMS 6 in
      mkproposal (yes_or Unclear hits) hits None) /\
   (dispatch axis_phrases (label item) = None ->
    propose_axis_score item sections =
      let hits := find_hits (section sections "Full Text") RE_ANY 6 in
      mkproposal Unclear (firstn 3 hits) None) /\
   (dispatch axis_phrases (label item) = Some "conclusions justified" ->
    propose_axis_score item sections =
      let hits := find_hits (section sections "Discussion") RE_CONCLUSIONS 6 in
      mkproposal (yes_or Unclear hits) hits None) /\
   (forall phrase,
      In phrase ["design appropriate"; "sampling frame"; "validity"; "reliability";
                 "confounding"; "statistical methods"; "precision"] ->
      dispatch axis_phrases (label item) = Some phrase ->
      propose_axis_score item sections = mkproposal Unclear [] None)).
Proof.
  split; [apply hint_text_resolves|].
  split; [apply hint_text_no_hint|].
  split.
  - intros Hne. split.
    + intros phrase p Hin H. unfold hint_rules in Hin. cbn [In] in Hin.
      unfold propose_axis_score.
      destruct (hint_text item sections) as [|c t] eqn:Et; [now elim Hne|].
      cbn [Str.or_else].
      repeat (destruct Hin as [Hin | Hin];
              [injection Hin as <- <-; label_cases H;
               repeat match goal with
                      | E : label_has _ _ = _ |- _ => rewrite E; clear E
                      end;
               reflexivity |]).
      destruct Hin.
    + intros H. label_cases H. unfold propose_axis_score.
      destruct (hint_text item sections) as [|c t] eqn:Et; [now elim Hne|].
      repeat match goal with E : label_has _ _ = false |- _ => rewrite E; clear E end.
      reflexivity.
  - intros Hempty. repeat split.
    + intros H. label_cases H. unfold propose_axis_score.
      rewrite Hempty. now rewrite Heqb.
    + intros H. label_cases H. unfold propose_axis_score.
      rewrite Hempty.
      repeat match goal with E : label_has _ _ = false |- _ => rewrite E; clear E end.
      reflexivity.
    + intros H. label_cases H. unfold propose_axis_score.
      rewrite Hempty.
      repeat match goal with E : label_has _ _ = _ |- _ => rewrite E; clear E end.
      reflexivity.
    + intros phrase Hin H. label_cases H; unfold propose_axis_score; rewrite Hempty;
        repeat match goal with E : label_has _ _ = _ |- _ => rewrite E; clear E end;
        try (rewrite find_hits_empty; reflexivity);
        exfalso; injection H as <-; simpl in Hin; intuition discriminate.
Qed.

Lemma hint_fallback_by_rule_witness :
  hint_text (Sample.item "Ethical approval" (Some [lit "Method"; lit "Ethics"]))
            Sample.secs_ethics
  = lit "Method: participants were students. The study was approved by the IRB. " /\
  propose_axis_score (Sample.item "Measurement validity" None)
                     (sectionize Sample.doc_plain)
    = mkproposal Unclear [] None.
Proof.
  split.
  - apply (proj1 (hint_fallback_by_rule
                    (Sample.item "Ethical approval" (Some [lit "Method"; lit "Ethics"]))
                    Sample.secs_ethics)
                 [lit "Method"; lit "Ethics"]).
    reflexivity.
  - apply (proj2 (proj2 (proj2
             (proj2 (proj2 (proj2 (hint_fallback_by_rule
                                     (Sample.item "Measurement validity" None)
                                     (sectionize Sample.doc_plain))))
                    eq_refl)))) with (phrase := "validity").
    + simpl. tauto.
    + reflexivity.
Defined.

(** ** C2: where evidence comes from *)

Lemma startswith_spec (p s : str) :
  Str.startswith p s = true <-> exists t, s = p ++ t.
Proof.
  revert s; induction p as [|x p IH]; intros s; simpl.
  - split; [intros _; now exists s | reflexivity].
  - destruct s as [|y s].
    + split; [discriminate | intros [t Ht]; discriminate].
    + rewrite andb_true_iff, Ascii.eqb_eq, IH. split.
      * intros [-> [t ->]]. now exists t.
      * intros [t Ht]. injection Ht as -> ->. split; [reflexivity | now exists t].
Qed.

Lemma contains_spec (x s : str) : Str.contains x s = true <-> infix x s.
Proof.
  induction s as [|c s IH]; simpl.
  - rewrite orb_false_r, startswith_spec. split.
    + intros [t Ht]. now exists [], t.
    + intros ([|c pre] & post & H); [now exists post | discriminate].
  - rewrite orb_true_iff, startswith_spec, IH. split.
    + intros [[t Ht] | H]; [now exists [], t | now apply infix_cons].
    + intros ([|d pre] & post & H).
      * left. now exists post.
      * right. injection H as -> ->. now exists pre, post.
Qed.

Lemma not_contains_not_infix (x s : str) : Str.contains x s = false -> ~ infix x s.
Proof. intros H I. apply contains_spec in I. congruence. Qed.

(** C2, as the specification states it, fails: the "measures align" and
    "jingle-jangle" rules return lines they compose themselves, which are
    no stretch of the normalized article. *)
Lemma evidence_verbatim_counterexample :
  let full := Sample.doc_grit in
  let run lbl :=
    propose_construct_score Sample.identity Sample.KB (Sample.item lbl None)
                            (sectionize full) full in
  clean_text full = full /\
  (In (lit "Grit-S → grit, self-control")
      (evidence (run "Measures align with the construct")) /\
   ~ infix (lit "Grit-S → grit, self-control") (clean_text full)) /\
  (In (lit "self-control: ['self-control']") (evidence (run "Jingle–jangle risk")) /\
   ~ infix (lit "self-control: ['self-control']") (clean_text full)).
Proof.
  cbv zeta. split; [reflexivity|]. split; split.
  - vm_compute. now left.
  - apply not_contains_not_infix. reflexivity.
  - vm_compute. now left.
  - apply not_contains_not_infix. reflexivity.
Qed.

Lemma or_else_cases (a b : str) : Str.or_else a b = a \/ Str.or_else a b = b.
Proof. destruct a; simpl; auto. Qed.

Lemma hits_from (texts : list str) (blob : str) (p : pattern) (maxn : nat) (e : str) :
  In blob texts -> In e (find_hits blob p maxn) ->
  exists blob, In blob texts /\ In e (sentences blob) /\ infix e (clean_text blob).
Proof.
  intros Hin H. exists blob. split; [exact Hin|].
  apply find_hits_sentences in H as [H _]. split; [exact H|].
  now apply sentences_verbatim in H.
Qed.

Lemma axis_evidence_verbatim (item : checklist_item) (sections : Dict.t str) (e : str) :
  In e (evidence (propose_axis_score item sections)) ->
  exists blob, In blob (axis_search_texts item sections) /\
               In e (sentences blob) /\ infix e (clean_text blob).
Proof.
  unfold propose_axis_score, axis_search_texts.
  repeat match goal with
         | |- context [if label_has ?p ?l then _ else _] => destruct (label_has p l)
         end;
    cbn [evidence]; intros H;
    try match type of H with In _ (firstn 3 _) => apply In_firstn in H end;
    try (destruct (or_else_cases (hint_text item sections) (section sections "Full Text"))
          as [E|E]; rewrite E in H);
    try (destruct (or_else_cases (hint_text item sections) (section sections "Discussion"))
          as [E|E]; rewrite E in H);
    (eapply hits_from; [|exact H]); simpl; tauto.
Qed.

Lemma construct_evidence_verbatim (set_list : list str -> list str)
      (KB : knowledge_base) (citem : checklist_item) (sections : Dict.t str)
      (full e : str) :
  dispatch construct_phrases (label citem) <> Some "measures align" ->
  dispatch construct_phrases (label citem) <> Some "jingle–jangle" ->
  In e (evidence (propose_construct_score set_list KB citem sections full)) ->
  exists blob, In blob [Str.or_else (hint_text citem sections) full; full] /\
               In e (sentences blob) /\ infix e (clean_text blob).
Proof.
  unfold dispatch, construct_phrases, propose_construct_score. cbn [find].
  repeat match goal with
         | |- context [if label_has ?p ?l then _ else _] => destruct (label_has p l)
         end;
    cbn [evidence]; intros H1 H2 H; try congruence; try contradiction;
    try apply in_app_or in H; try destruct H as [H|H];
    (eapply hits_from; [|exact H]); simpl; tauto.
Qed.

(** C2 (amended): every evidence string of the AXIS scorer, and of the
    construct scorer outside its "measures align" and "jingle-jangle"
    rules, is one of the sentences of the text the rule searches (the
    resolved hint, the named sections, or the full text) and hence a
    contiguous stretch of that text once normalized; the two excepted rules
    return one composed line for each detected measure or construct. *)
Theorem evidence_verbatim (set_list : list str -> list str) (KB : knowledge_base)
        (item citem : checklist_item) (sections : Dict.t str) (full : str) :
  (forall e,
      In e (evidence (propose_axis_score item sections)) ->
      exists blob, In blob (axis_search_texts item sections) /\
                   In e (sentences blob) /\ infix e (clean_text blob)) /\
  (forall e,
      dispatch construct_phrases (label citem) <> Some "measures align" ->
      dispatch construct_phrases (label citem) <> Some "jingle–jangle" ->
      In e (evidence (propose_construct_score set_list KB citem sections full)) ->
      exists blob, In blob [Str.or_else (hint_text citem sections) full; full] /\
                   In e (sentences blob) /\ infix e (clean_text blob)) /\
  (dispatch construct_phrases (label citem) = Some "measures align" ->
   evidence (propose_construct_score set_list KB citem sections full)
     = map measure_line (detect_measures KB full)) /\
  (dispatch construct_phrases (label citem) = Some "jingle–jangle" ->
   evidence (propose_construct_score set_list KB citem sections full)
     = map construct_line (detect_construct_labels set_list KB full)).
Proof.
  split; [intros e; apply axis_evidence_verbatim|].
  split; [intros e; apply construct_evidence_verbatim|].
  split; intros H; label_cases H; unfold propose_construct_score;
    repeat match goal with E : label_has _ _ = _ |- _ => rewrite E; clear E end;
    reflexivity.
Qed.

Lemma evidence_verbatim_witness :
  exists blob,
    In blob (axis_search_texts (Sample.item "Ethical approval" None) Sample.secs_ethics) /\
    In (lit "The study was approved by the IRB.") (sentences blob) /\
    infix (lit "The study was approved by the IRB.") (clean_text blob).
Proof.
  apply (proj1 (evidence_verbatim Sample.identity Sample.KB
                                  (Sample.item "Ethical approval" None)
                                  (Sample.item "Ethical approval" None)
                                  Sample.secs_ethics [])).
  vm_compute. tauto.
Defined.

(** ** C3: the "subcomponents" rule without configured phrases *)

Lemma empty_pattern_found (ic : bool) (s : str) : Re.found (compile Eps ic) s = true.
Proof. unfold Re.found, Re.search. now destruct s. Qed.

Lemma filter_all {A : Type} (p : A -> bool) (l : list A) :
  (forall x, p x = true) -> filter p l = l.
Proof.
  intros H. induction l as [|x l IH]; simpl; [reflexivity|].
  now rewrite H, IH.
Qed.

(** When no construct has a subcomponent phrase, the pattern of the rule is
    the empty pattern, which is found in every sentence: the rule returns
    the first six sentences of the hinted text, and Yes as soon as there is
    one. *)
Lemma subcomponents_unconfigured (set_list : list str -> list str)
      (KB : knowledge_base) (citem : checklist_item) (sections : Dict.t str)
      (full : str) :
  (forall centry, In centry (constructs KB) -> subcomponents (snd centry) = []) ->
  dispatch construct_phrases (label citem) = Some "subcomponents" ->
  let hits := firstn 6 (sentences (Str.or_else (hint_text citem sections) full)) in
  propose_construct_score set_list KB citem sections full
    = mkproposal (yes_or Unclear hits) hits None.
Proof.
  intros Hnone H. label_cases H. unfold propose_construct_score.
  repeat match goal with E : label_has _ _ = _ |- _ => rewrite E; clear E end.
  assert (Hpat : subcomponent_pattern KB = compile Eps false).
  { unfold subcomponent_pattern.
    assert (E : flat_map (fun centry : str * construct_node => subcomponents (snd centry))
                         (constructs KB) = []).
    { induction (constructs KB) as [|c cs IH]; simpl; [reflexivity|].
      rewrite (Hnone c) by now left. simpl. apply IH.
      intros c' Hc'. apply Hnone. now right. }
    now rewrite E. }
  rewrite Hpat. unfold find_hits. rewrite filter_all by apply empty_pattern_found.
  reflexivity.
Qed.

(** C3: the code at a knowledge base without subcomponent phrases.  The
    pattern built is the empty pattern, it matches every sentence, and the
    item is scored Yes with the first sentences of the text as evidence,
    where the specification expects Unclear and no evidence. *)
Theorem subcomponents_unconfigured_scores_yes :
  (forall centry, In centry (constructs Sample.KB_no_subcomponents) ->
                  subcomponents (snd centry) = []) /\
  subcomponent_pattern Sample.KB_no_subcomponents = compile Eps false /\
  propose_construct_score Sample.identity Sample.KB_no_subcomponents
                          (Sample.item "Subcomponents identified" None)
                          (sectionize Sample.doc_observed) Sample.doc_observed
    = mkproposal Yes [lit "We observed behaviour."; lit "It varied."] None.
Proof.
  split; [|split; reflexivity].
  intros centry [<-|[<-|[]]]; reflexivity.
Qed.

(** ** C4: the names of the sections *)

Lemma to_lower_idem (c : ascii) : Char.to_lower (Char.to_lower c) = Char.to_lower c.
Proof. destruct c as [[] [] [] [] [] [] [] []]; reflexivity. Qed.

Lemma to_upper_lower (c : ascii) : Char.to_upper (Char.to_lower c) = Char.to_upper c.
Proof. destruct c as [[] [] [] [] [] [] [] []]; reflexivity. Qed.

Lemma is_alpha_lower (c : ascii) : Char.is_alpha (Char.to_lower c) = Char.is_alpha c.
Proof. destruct c as [[] [] [] [] [] [] [] []]; reflexivity. Qed.

(** [title] does not depend on the case of its argument. *)
Lemma title_from_lower (s : str) :
  forall b, Str.title_from b (Str.lower s) = Str.title_from b s.
Proof.
  induction s as [|c s IH]; intros b; simpl; [reflexivity|].
  rewrite to_lower_idem, to_upper_lower, is_alpha_lower. f_equal. apply IH.
Qed.

Lemma title_lower (s : str) : Str.title (Str.lower s) = Str.title s.
Proof. apply title_from_lower. Qed.

Lemma chr_match_lower (ic : bool) (c y : ascii) :
  chr_match ic c y = true -> Char.to_lower y = Char.to_lower c.
Proof.
  unfold chr_match, Char.eqb_ci. destruct ic; intros H; apply Ascii.eqb_eq in H;
    congruence.
Qed.

Lemma all_some_In {A B : Type} (f : A -> option B) (l : list A) (ys : list B) :
  all_some (map f l) = Some ys ->
  forall a, In a l -> exists y, f a = Some y /\ In y ys.
Proof.
  revert ys; induction l as [|a0 l IH]; intros ys H a Ha; [destruct Ha|].
  simpl in H. destruct (f a0) as [y0|] eqn:E0; [|discriminate].
  destruct (all_some (map f l)) as [ys'|] eqn:E; [|discriminate].
  injection H as <-. destruct Ha as [<-|Ha].
  - exists y0. split; [exact E0 | now left].
  - destruct (IH ys' eq_refl a Ha) as (y & Hy & Hin). exists y. split; [exact Hy | now right].
Qed.

(** What a star-free pattern matches is, lowered, a word of its language. *)
Lemma rmatch_language (ic : bool) (r : regex) :
  forall lang prev s k x,
    language r = Some lang ->
    rmatch ic r prev s k = Some x ->
    exists m p rest, s = m ++ rest /\ In (Str.lower m) lang /\ k p rest = Some x.
Proof.
  induction r as [ |c|items| |r1 IH1 r2 IH2|r1 IH1 r2 IH2|r IH| |items|items];
    intros lang prev s k x HL H; simpl in HL, H; try discriminate.
  - injection HL as <-. exists [], prev, s. simpl. auto.
  - injection HL as <-. destruct s as [|y s]; [discriminate|].
    destruct (chr_match ic c y) eqn:E; [|discriminate].
    exists [y], (Some y), s. simpl. rewrite (chr_match_lower _ _ _ E). auto.
  - destruct (all_some (map item_char items)) as [cs|] eqn:Ecs; [|discriminate].
    injection HL as <-. destruct s as [|y s]; [discriminate|].
    destruct (cls_match ic items y) eqn:E; [|discriminate].
    exists [y], (Some y), s. split; [reflexivity|]. split; [|exact H].
    apply existsb_exists in E as (it & Hit & Hm).
    destruct (all_some_In _ _ Ecs it Hit) as (c & Hc & Hin).
    destruct it as [c'| |]; try discriminate. injection Hc as <-.
    simpl in Hm. apply chr_match_lower in Hm. simpl. rewrite Hm.
    apply in_map_iff. now exists (Char.to_lower c').
  - destruct (language r1) as [l1|] eqn:E1; [|discriminate].
    destruct (language r2) as [l2|] eqn:E2; [|discriminate].
    injection HL as <-.
    destruct (IH1 _ _ _ _ _ eq_refl H) as (m1 & p1 & rest1 & -> & Hm1 & H1).
    destruct (IH2 _ _ _ _ _ eq_refl H1) as (m2 & p2 & rest2 & -> & Hm2 & H2).
    exists (m1 ++ m2), p2, rest2. split; [now rewrite app_assoc|]. split; [|exact H2].
    unfold Str.lower. rewrite map_app. apply in_flat_map.
    exists (Str.lower m1). split; [exact Hm1|]. apply in_map_iff.
    now exists (Str.lower m2).
  - destruct (language r1) as [l1|] eqn:E1; [|discriminate].
    destruct (language r2) as [l2|] eqn:E2; [|discriminate].
    injection HL as <-.
    destruct (rmatch ic r1 prev s k) eqn:E.
    + injection H as ->.
      destruct (IH1 _ _ _ _ _ eq_refl E) as (m & p & rest & Hs & Hm & Hk).
      exists m, p, rest. repeat split; auto. apply in_or_app. now left.
    + destruct (IH2 _ _ _ _ _ eq_refl H) as (m & p & rest & Hs & Hm & Hk).
      exists m, p, rest. repeat split; auto. apply in_or_app. now right.
  - injection HL as <-. destruct (xorb _ _); [|discriminate].
    exists [], prev, s. simpl. auto.
  - injection HL as <-. destruct prev as [p|]; [|discriminate].
    destruct (cls_match ic items p); [|discriminate].
    exists [], (Some p), s. simpl. auto.
  - injection HL as <-. destruct s as [|y s]; [discriminate|].
    destruct (cls_match ic items y); [|discriminate].
    exists [], prev, (y :: s). simpl. auto.
Qed.

Lemma search_at_language (ic : bool) (r : regex) (lang : list str) :
  language r = Some lang ->
  forall s prev m, search_at ic r prev s = Some m -> In (Str.lower (group0 m)) lang.
Proof.
  intros HL.
  assert (Hhere : forall s prev rest,
             rmatch ic r prev s (fun _ rest => Some rest) = Some rest ->
             In (Str.lower (firstn (length s - length rest) s)) lang).
  { intros s prev rest E.
    destruct (rmatch_language _ _ _ _ _ HL E) as (g & p & rest' & Hs & Hg & Hk).
    injection Hk as ->. rewrite Hs, firstn_app_exact. exact Hg. }
  induction s as [|c s IH]; intros prev m H; cbn [search_at] in H.
  - destruct (rmatch ic r prev [] _) eqn:E; [|discriminate].
    injection H as <-. cbn [group0]. now apply Hhere in E.
  - destruct (rmatch ic r prev (c :: s) _) eqn:E.
    + injection H as <-. cbn [group0]. now apply Hhere in E.
    + destruct (search_at ic r (Some c) s) as [m'|] eqn:E'; [|discriminate].
      injection H as <-. cbn [group0]. now apply IH in E'.
Qed.

Lemma existsb_eqb_In (x : str) (l : list str) : existsb (Str.eqb x) l = true -> In x l.
Proof.
  intros H. apply existsb_exists in H as (y & Hy & E).
  apply Str_eqb_eq in E. now subst.
Qed.

(** The heading a line opens is one of the eighteen names of the code. *)
Lemma section_head_title (s : str) (m : rematch) :
  Re.search SECTION_HEAD s = Some m -> In (Str.title (group0 m)) code_vocabulary.
Proof.
  intros H.
  assert (HL : exists lang, language (tree SECTION_HEAD) = Some lang /\
                            forallb (fun w => existsb (Str.eqb (Str.title w)) code_vocabulary)
                                    lang = true).
  { eexists. split; [vm_compute; reflexivity | vm_compute; reflexivity]. }
  destruct HL as (lang & HL & Hall).
  apply (search_at_language _ _ HL) in H.
  rewrite forallb_forall in Hall. apply Hall in H.
  rewrite title_lower in H. now apply existsb_eqb_In.
Qed.

(** ** Dictionaries *)

Section DictFacts.
Variable V : Type.
Implicit Types (d : Dict.t V) (k : str) (f : V -> V).

Lemma keys_update d k f : Dict.keys (Dict.update d k f) = Dict.keys d.
Proof.
  induction d as [|[k' v] d IH]; simpl; [reflexivity|].
  destruct (Str.eqb k' k); simpl; [reflexivity | now rewrite IH].
Qed.

Lemma get_In d k v : Dict.get d k = Some v -> In (k, v) d.
Proof.
  induction d as [|[k' v'] d IH]; simpl; [discriminate|].
  destruct (Str.eqb k' k) eqn:E.
  - intros H. injection H as ->. apply Str_eqb_eq in E. subst. now left.
  - intros H. right. now apply IH.
Qed.

Lemma mem_keys d k : Dict.mem k d = true <-> In k (Dict.keys d).
Proof.
  unfold Dict.mem. induction d as [|[k' v] d IH]; simpl.
  - split; [discriminate | tauto].
  - destruct (Str.eqb k' k) eqn:E.
    + apply Str_eqb_eq in E. subst. split; auto.
    + rewrite IH. apply Str_eqb_neq in E. split; [auto | intros [H|H]; tauto].
Qed.

Lemma get_app d d' k :
  Dict.get (d ++ d') k =
  match Dict.get d k with Some v => Some v | None => Dict.get d' k end.
Proof.
  induction d as [|[k' v] d IH]; simpl; [reflexivity|].
  now destruct (Str.eqb k' k).
Qed.

Lemma keys_setdefault d k v :
  Dict.keys (Dict.setdefault d k v) =
  if Dict.mem k d then Dict.keys d else Dict.keys d ++ [k].
Proof.
  unfold Dict.setdefault. destruct (Dict.mem k d); [reflexivity|].
  unfold Dict.keys. now rewrite map_app.
Qed.

Lemma mem_setdefault d k v : Dict.mem k (Dict.setdefault d k v) = true.
Proof.
  unfold Dict.setdefault. destruct (Dict.mem k d) eqn:E; [exact E|].
  unfold Dict.mem in *. rewrite get_app.
  destruct (Dict.get d k); [reflexivity|]. simpl. now rewrite Str_eqb_refl.
Qed.

Lemma mem_setdefault_mono d k k' v :
  Dict.mem k d = true -> Dict.mem k (Dict.setdefault d k' v) = true.
Proof.
  intros H. unfold Dict.setdefault. destruct (Dict.mem k' d); [exact H|].
  unfold Dict.mem in *. rewrite get_app. now destruct (Dict.get d k).
Qed.

Lemma get_update_same d k f :
  Dict.get (Dict.update d k f) k = option_map f (Dict.get d k).
Proof.
  induction d as [|[k' v] d IH]; simpl; [reflexivity|].
  destruct (Str.eqb k' k) eqn:E; simpl; rewrite E; [reflexivity | exact IH].
Qed.

Lemma get_update_other d k k' f :
  k <> k' -> Dict.get (Dict.update d k f) k' = Dict.get d k'.
Proof.
  intros Hne. induction d as [|[k0 v] d IH]; simpl; [reflexivity|].
  destruct (Str.eqb k0 k) eqn:E; simpl.
  - apply Str_eqb_eq in E. subst k0.
    apply Str_eqb_neq in Hne. now rewrite Hne.
  - now rewrite IH.
Qed.

Lemma mem_update d k k' f : Dict.mem k' (Dict.update d k f) = Dict.mem k' d.
Proof.
  unfold Dict.mem. destruct (Str.eqb k k') eqn:E.
  - apply Str_eqb_eq in E. subst. rewrite get_update_same.
    now destruct (Dict.get d k').
  - apply Str_eqb_neq in E. now rewrite get_update_other.
Qed.

Lemma update_update d k f g :
  Dict.update (Dict.update d k f) k g = Dict.update d k (fun v => g (f v)).
Proof.
  induction d as [|[k' v] d IH]; simpl; [reflexivity|].
  destruct (Str.eqb k' k) eqn:E; simpl; rewrite E; [reflexivity | now rewrite IH].
Qed.

Lemma update_comm d k k' f g :
  k <> k' ->
  Dict.update (Dict.update d k f) k' g = Dict.update (Dict.update d k' g) k f.
Proof.
  intros Hne. induction d as [|[k0 v] d IH]; simpl; [reflexivity|].
  destruct (Str.eqb k0 k) eqn:E; destruct (Str.eqb k0 k') eqn:E'; simpl;
    rewrite ?E, ?E'; try reflexivity.
  - apply Str_eqb_eq in E, E'. congruence.
  - now rewrite IH.
Qed.

Lemma update_app d d' k f :
  Dict.mem k d = true -> Dict.update (d ++ d') k f = Dict.update d k f ++ d'.
Proof.
  unfold Dict.mem. induction d as [|[k' v] d IH]; simpl; [discriminate|].
  destruct (Str.eqb k' k); [reflexivity|]. intros H. now rewrite IH.
Qed.

Lemma forallb_update (P : str * V -> bool) d k f :
  forallb P d = true -> (forall k' v, P (k', f v) = true) ->
  forallb P (Dict.update d k f) = true.
Proof.
  intros H HP. induction d as [|[k' v] d IH]; simpl in *; [reflexivity|].
  apply andb_true_iff in H as [H1 H2].
  destruct (Str.eqb k' k); simpl.
  - now rewrite HP, H2.
  - now rewrite H1, IH.
Qed.
End DictFacts.






(** ** C7: the "ethical" rule *)

(** C7, as the specification states it, fails for a label that also holds
    the phrase of an earlier rule: the item is handled by that rule, here
    "funding", and is scored Unclear although the ethics detector hits in
    the "Method" section. *)
Lemma ethical_rule_counterexample :
  let item := Sample.item "Ethical approval and funding" None in
  let secs := Sample.secs_ethics in
  label_has "ethical" (label item) = true /\
  find_hits (section secs "Ethics" ++ lit " " ++ section secs "Method") RE_ETHICS 6
    = [lit "The study was approved by the IRB."] /\
  propose_axis_score item secs = mkproposal Unclear [] None.
Proof. vm_compute. repeat split. Qed.

(** C7 (amended): for every AXIS item whose label contains "ethical" and
    none of the phrases of the ten rules tried before it, the scorer runs
    the ethics detector over the "Ethics" text, a space and the "Method"
    text; the evidence is the matching sentences (six at most), verbatim,
    and the score is Yes when there is one and N/A when there is none,
    never Unclear. *)
Theorem ethical_rule (item : checklist_item) (sections : Dict.t str) :
  dispatch axis_phrases (label item) = Some "ethical" ->
  let blob := section sections "Ethics" ++ lit " " ++ section sections "Method" in
  let result := propose_axis_score item sections in
  evidence result = find_hits blob RE_ETHICS 6 /\
  (forall e, In e (evidence result) ->
             In e (sentences blob) /\ Re.found RE_ETHICS e = true) /\
  (evidence result <> [] -> proposed result = Yes) /\
  (evidence result = [] -> proposed result = NA) /\
  proposed result <> Unclear.
Proof.
  intros H blob result. subst result. label_cases H. unfold propose_axis_score.
  repeat match goal with E : label_has _ _ = _ |- _ => rewrite E; clear E end.
  fold blob. cbn [evidence proposed].
  split; [reflexivity|]. split; [intros e; apply find_hits_sentences|].
  destruct (find_hits blob RE_ETHICS 6); simpl; repeat split; congruence.
Qed.

Lemma ethical_rule_witness :
  let result := propose_axis_score (Sample.item "Ethical approval" None)
                                   Sample.secs_ethics in
  evidence result = [lit "The study was approved by the IRB."] /\
  proposed result = Yes.
Proof.
  cbv zeta.
  destruct (ethical_rule (Sample.item "Ethical approval" None) Sample.secs_ethics
                         eq_refl) as (Hev & _ & Hyes & _).
  split; [rewrite Hev; vm_compute; reflexivity|]. apply Hyes. vm_compute. discriminate.
Defined.

(** ** C9: one entry for each measure *)

Lemma find_first_match (p : str -> bool) (l : list str) (a : str) :
  find p l = Some a -> first_match p l a.
Proof.
  induction l as [|x l IH]; simpl; [discriminate|].
  destruct (p x) eqn:E.
  - intros H. injection H as <-. now exists [], l.
  - intros H. destruct (IH H) as (pre & post & -> & Ha & Hpre).
    exists (x :: pre), post. simpl. now rewrite E.
Qed.

Lemma detect_measures_ids (KB : knowledge_base) (blob : str) (h : measure_hit) :
  In h (detect_measures KB blob) ->
  exists mnode,
    In (measure h, mnode) (measures KB) /\
    first_alias blob mnode = Some (alias h) /\
    hit_type h = type mnode /\ hit_targets h = targets mnode.
Proof.
  unfold detect_measures. intros H.
  apply in_flat_map in H as ([mid mnode] & Hin & H).
  destruct (first_alias blob mnode) as [a|] eqn:E; [|destruct H].
  destruct H as [<-|[]]. exists mnode. simpl. auto.
Qed.

Lemma detect_measures_In (KB : knowledge_base) (blob : str) (mid : str)
      (mnode : measure_node) (a : str) :
  In (mid, mnode) (measures KB) -> first_alias blob mnode = Some a ->
  In (mkhit mid a (type mnode) (targets mnode)) (detect_measures KB blob).
Proof.
  intros Hin E. unfold detect_measures. apply in_flat_map.
  exists (mid, mnode). split; [exact Hin|]. rewrite E. now left.
Qed.

Lemma first_match_find (p : str -> bool) (l : list str) (a : str) :
  first_match p l a -> find p l = Some a.
Proof.
  intros (pre & post & -> & Ha & Hpre).
  induction pre as [|x pre IH]; simpl in *.
  - now rewrite Ha.
  - apply andb_true_iff in Hpre as [Hx Hpre].
    destruct (p x); [discriminate Hx | now apply IH].
Qed.

(** C9: a dictionary has each key once, so [detect_measures] returns at
    most one entry for each measure id.  The aliases of a measure are
    tried in declared order: the first one that matches as a whole word
    without regard to case is recorded, with the type and the targets of
    the measure, and every entry returned is of that kind; a measure none
    of whose aliases matches has no entry. *)
Theorem detect_measures_one_per_measure (KB : knowledge_base) (blob : str) :
  NoDup (Dict.keys (measures KB)) ->
  NoDup (map measure (detect_measures KB blob)) /\
  (forall h, In h (detect_measures KB blob) ->
     exists mnode,
       In (measure h, mnode) (measures KB) /\
       first_match (fun a => Re.found (word_pattern a) blob) (aliases mnode) (alias h)) /\
  (forall mid mnode a,
     In (mid, mnode) (measures KB) ->
     first_match (fun a => Re.found (word_pattern a) blob) (aliases mnode) a ->
     In (mkhit mid a (type mnode) (targets mnode)) (detect_measures KB blob) /\
     forall h, In h (detect_measures KB blob) -> measure h = mid ->
               h = mkhit mid a (type mnode) (targets mnode)) /\
  (forall mid mnode,
     In (mid, mnode) (measures KB) ->
     (forall a, In a (aliases mnode) -> Re.found (word_pattern a) blob = false) ->
     ~ In mid (map measure (detect_measures KB blob))).
Proof.
  intros Hnd.
  assert (Hfun : forall mid m1 m2,
             In (mid, m1) (measures KB) -> In (mid, m2) (measures KB) -> m1 = m2).
  { revert Hnd. unfold Dict.keys.
    induction (measures KB) as [|[k v] ms IH]; intros Hnd' mid m1 m2 H1 H2;
      [destruct H1|].
    inversion Hnd' as [|x xs Hnotin Hrest]; subst. cbn [fst] in Hnotin.
    destruct H1 as [E1|H1], H2 as [E2|H2].
    - congruence.
    - injection E1 as -> ->. elim Hnotin. apply in_map_iff. now exists (mid, m2).
    - injection E2 as -> ->. elim Hnotin. apply in_map_iff. now exists (mid, m1).
    - now apply (IH Hrest mid). }
  split; [|split; [|split]].
  - unfold detect_measures. induction (measures KB) as [|[mid mnode] ms IH];
      simpl; [constructor|].
    inversion Hnd as [|k ks Hnotin Hnd']; subst.
    assert (Hfun' : forall mid m1 m2, In (mid, m1) ms -> In (mid, m2) ms -> m1 = m2)
      by (intros k m1 m2 H1 H2; apply (Hfun k); now right).
    specialize (IH Hnd' Hfun'). rewrite map_app.
    destruct (first_alias blob mnode) as [a|]; simpl; [|exact IH].
    constructor; [|exact IH].
    intros Hin. apply Hnotin. apply in_map_iff in Hin as (h & Hm & Hin).
    apply in_flat_map in Hin as ([mid' mnode'] & Hin' & Hh).
    destruct (first_alias blob mnode'); [|destruct Hh].
    destruct Hh as [<-|[]]. simpl in Hm. subst mid'.
    apply in_map_iff. now exists (mid, mnode').
  - intros h Hh. apply detect_measures_ids in Hh as (mnode & Hin & Ha & _).
    exists mnode. split; [exact Hin|]. now apply find_first_match.
  - intros mid mnode a Hin Hfirst. apply first_match_find in Hfirst. split.
    + now apply detect_measures_In.
    + intros h Hh Hm. apply detect_measures_ids in Hh as (mnode' & Hin' & Ha & Ht & Hg).
      rewrite Hm in Hin'. rewrite (Hfun mid mnode' mnode Hin' Hin) in *.
      unfold first_alias in Ha. rewrite Hfirst in Ha. injection Ha as Ha.
      destruct h as [hm ha ht hg]. cbn [measure alias hit_type hit_targets] in *.
      congruence.
  - intros mid mnode Hin Hnone Hmid.
    apply in_map_iff in Hmid as (h & Hm & Hh).
    apply detect_measures_ids in Hh as (mnode' & Hin' & Ha & _).
    rewrite Hm in Hin'. rewrite (Hfun mid mnode' mnode Hin' Hin) in Ha.
    unfold first_alias in Ha. apply find_some in Ha as [Ha Hf].
    rewrite (Hnone _ Ha) in Hf. discriminate.
Qed.

Lemma detect_measures_one_per_measure_witness :
  NoDup (map measure (detect_measures Sample.KB Sample.doc_two_aliases)) /\
  In (mkhit (lit "GritS") (lit "Short Grit Scale") (lit "self-report")
            [lit "grit"; lit "self-control"])
     (detect_measures Sample.KB Sample.doc_two_aliases).
Proof.
  assert (Hnd : NoDup (Dict.keys (measures Sample.KB)))
    by (vm_compute; repeat constructor; simpl; intuition discriminate).
  split.
  - exact (proj1 (detect_measures_one_per_measure Sample.KB Sample.doc_two_aliases Hnd)).
  - apply (proj1 (proj2 (proj2 (detect_measures_one_per_measure
                                  Sample.KB Sample.doc_two_aliases Hnd)))
                 (lit "GritS")
                 (mkmeasure [lit "Short Grit Scale"; lit "Grit-S"] (lit "self-report")
                            [lit "grit"; lit "self-control"])
                 (lit "Short Grit Scale")).
    + right. left. reflexivity.
    + exists [], [lit "Grit-S"]. split; [reflexivity|].
      split; vm_compute; reflexivity.
Defined.

(** ** C5 and C6: the "measures align" rule *)

Lemma find_exists (p : str -> bool) (l : list str) (a : str) :
  In a l -> p a = true -> exists b, find p l = Some b.
Proof.
  induction l as [|x l IH]; simpl; [tauto|].
  intros [->|Hin] Ha.
  - rewrite Ha. now exists a.
  - destruct (p x); [now exists x | now apply IH].
Qed.

Lemma find_none_all (p : str -> bool) (l : list str) :
  (forall a, In a l -> p a = false) -> find p l = None.
Proof.
  induction l as [|x l IH]; simpl; [reflexivity|].
  intros H. rewrite (H x) by now left. apply IH. intros a Ha. apply H. now right.
Qed.

Lemma set_mem_add (x y : str) (v : list str) :
  set_mem x (set_add y v) = set_mem x v || Str.eqb x y.
Proof.
  unfold set_mem, set_add. destruct (existsb (Str.eqb y) v) eqn:E.
  - destruct (Str.eqb x y) eqn:Exy; [|now rewrite orb_false_r].
    apply Str_eqb_eq in Exy. subst. now rewrite E.
  - rewrite existsb_app. simpl. now rewrite orb_false_r.
Qed.

(** The set [ops] of the rule holds the id of every detected measure. *)
Lemma ops_mem (ms : list measure_hit) (h : measure_hit) :
  In h ms ->
  forall ops0,
    set_mem (measure h) (fold_left (fun ops m => set_add (measure m) ops) ms ops0) = true.
Proof.
  assert (Hkeep : forall ms ops0 x,
             set_mem x ops0 = true ->
             set_mem x (fold_left (fun ops m => set_add (measure m) ops) ms ops0) = true).
  { clear. induction ms as [|m ms IH]; intros ops0 x H; simpl; [exact H|].
    apply IH. rewrite set_mem_add, H. reflexivity. }
  induction ms as [|m ms IH]; intros Hin ops0; [destruct Hin|].
  simpl. destruct Hin as [->|Hin].
  - apply Hkeep. rewrite set_mem_add, Str_eqb_refl. apply orb_true_r.
  - now apply IH.
Qed.

Lemma mem_map_values {A B : Type} (g : A -> B) (d : Dict.t A) (k : str) :
  Dict.mem k (map (fun kv => (fst kv, g (snd kv))) d) = Dict.mem k d.
Proof.
  unfold Dict.mem. induction d as [|[k' v] d IH]; simpl; [reflexivity|].
  now destruct (Str.eqb k' k).
Qed.

(** A construct stays detected once one of its labels has matched. *)
Lemma labels_fold_keeps (blob cname : str) (labels : list str) :
  forall (found : Dict.t (list str)) (k : str),
    Dict.mem k found = true ->
    Dict.mem k
      (fold_left
         (fun found lbl =>
            if Re.found (word_pattern lbl) blob
            then Dict.update (Dict.setdefault found cname []) cname (set_add lbl)
            else found)
         labels found) = true.
Proof.
  induction labels as [|lbl labels IH]; intros found k H; simpl; [exact H|].
  apply IH. destruct (Re.found (word_pattern lbl) blob); [|exact H].
  rewrite mem_update. now apply mem_setdefault_mono.
Qed.

Lemma detect_labels_of_keeps (blob : str) (centry : str * construct_node)
      (found : Dict.t (list str)) (k : str) :
  Dict.mem k found = true -> Dict.mem k (detect_labels_of blob found centry) = true.
Proof. destruct centry as [cname cnode]. apply labels_fold_keeps. Qed.

Lemma detect_labels_of_adds (blob : str) (cname : str) (cnode : construct_node)
      (found : Dict.t (list str)) (lbl : str) :
  In lbl (canonical cnode ++ neighbors cnode) ->
  Re.found (word_pattern lbl) blob = true ->
  Dict.mem cname (detect_labels_of blob found (cname, cnode)) = true.
Proof.
  unfold detect_labels_of.
  generalize (canonical cnode ++ neighbors cnode). intros labels.
  revert found. induction labels as [|l labels IH]; intros found Hin Hm;
    [destruct Hin|].
  simpl. destruct Hin as [->|Hin]; [|now apply IH].
  rewrite Hm. apply labels_fold_keeps.
  rewrite mem_update. apply mem_setdefault.
Qed.

Lemma detect_construct_labels_mem (set_list : list str -> list str)
      (KB : knowledge_base) (blob : str) (cname : str) (cnode : construct_node)
      (lbl : str) :
  In (cname, cnode) (constructs KB) ->
  In lbl (canonical cnode ++ neighbors cnode) ->
  Re.found (word_pattern lbl) blob = true ->
  Dict.mem cname (detect_construct_labels set_list KB blob) = true.
Proof.
  intros Hin Hlbl Hm. unfold detect_construct_labels.
  rewrite (mem_map_values (fun v => sorted (set_list v))).
  assert (Hkeep : forall cs found,
             Dict.mem cname found = true ->
             Dict.mem cname (fold_left (detect_labels_of blob) cs found) = true).
  { induction cs as [|c cs IH]; intros found H; simpl; [exact H|].
    apply IH. now apply detect_labels_of_keeps. }
  generalize (@nil (str * list str)).
  induction (constructs KB) as [|c cs IH]; intros found; [destruct Hin|].
  simpl. destruct Hin as [->|Hin]; [|now apply IH].
  apply Hkeep. now apply detect_labels_of_adds with lbl.
Qed.

(** A phrase that stands verbatim in the text as a whole word is found by
    the detector of that phrase. *)
Lemma last_of_cons (prev : option ascii) (c : ascii) (s : str) :
  last_of prev (c :: s) = last_of (Some c) s.
Proof.
  unfold last_of. simpl. destruct (rev s) as [|d r]; reflexivity.
Qed.

Lemma last_of_app (prev : option ascii) (a b : str) :
  last_of prev (a ++ b) = last_of (last_of prev a) b.
Proof.
  revert prev; induction a as [|c a IH]; intros prev; [reflexivity|].
  simpl app. now rewrite !last_of_cons, IH.
Qed.

Lemma chr_match_refl (c : ascii) : chr_match true c c = true.
Proof. unfold chr_match, Char.eqb_ci. apply Ascii.eqb_refl. Qed.

Lemma rmatch_Lit_verbatim (w : str) :
  forall prev post k,
    rmatch true (Lit w) prev (w ++ post) k = k (last_of prev w) post.
Proof.
  induction w as [|c w IH]; intros prev post k; [reflexivity|].
  destruct w as [|c' w].
  - simpl. now rewrite chr_match_refl.
  - change (Lit (c :: c' :: w)) with (Seq (Chr c) (Lit (c' :: w))).
    cbn [rmatch app]. rewrite chr_match_refl.
    change (c' :: w ++ post) with ((c' :: w) ++ post).
    rewrite IH. now rewrite (last_of_cons prev c (c' :: w)).
Qed.

Lemma search_at_reaches (ic : bool) (r : regex) (s : str) (pre : str) :
  forall prev,
    rmatch ic r (last_of prev pre) s (fun _ rest => Some rest) <> None ->
    search_at ic r prev (pre ++ s) <> None.
Proof.
  induction pre as [|c pre IH]; intros prev H.
  - simpl app. change (last_of prev []) with prev in H.
    destruct s; cbn [search_at];
      destruct (rmatch ic r prev _ _); congruence.
  - rewrite last_of_cons in H. apply IH in H.
    simpl app. cbn [search_at].
    destruct (rmatch ic r prev _ _); [discriminate|].
    destruct (search_at ic r (Some c) (pre ++ s)); congruence.
Qed.

Lemma whole_word_found (w text : str) :
  whole_word w text -> Re.found (word_pattern w) text = true.
Proof.
  intros (pre & post & -> & Hleft & Hright).
  unfold Re.found, Re.search, word_pattern. cbn [tree ignorecase].
  destruct (search_at true (seqs [WordB; Lit w; WordB]) None (pre ++ w ++ post)) eqn:E;
    [reflexivity|].
  exfalso. revert E. apply search_at_reaches.
  cbn [seqs rmatch]. rewrite Hleft, rmatch_Lit_verbatim.
  rewrite <- last_of_app, Hright. discriminate.
Qed.

(** The "measures align" rule when the detectors find the alias "Grit-S"
    of measure GritS and a canonical label of construct "self-control". *)
Lemma measures_align_detected (set_list : list str -> list str) (KB : knowledge_base)
      (citem : checklist_item) (sections : Dict.t str) (full : str)
      (mnode : measure_node) (cnode : construct_node) (lbl : str) :
  dispatch construct_phrases (label citem) = Some "measures align" ->
  In (lit "GritS", mnode) (measures KB) ->
  In (lit "Grit-S") (aliases mnode) ->
  Re.found (word_pattern (lit "Grit-S")) full = true ->
  In (lit "self-control", cnode) (constructs KB) ->
  In lbl (canonical cnode) ->
  Re.found (word_pattern lbl) full = true ->
  let result := propose_construct_score set_list KB citem sections full in
  proposed result = Yes /\
  exists warn, warnings result = Some warn /\ In WARN_JINGLE warn.
Proof.
  intros H Hm Ha Hfa Hc Hl Hfl result. subst result.
  label_cases H. unfold propose_construct_score.
  repeat match goal with E : label_has _ _ = _ |- _ => rewrite E; clear E end.
  destruct (find_exists (fun a => Re.found (word_pattern a) full) _ _ Ha Hfa) as [a E].
  pose proof (detect_measures_In KB full _ _ Hm E) as Hhit.
  cbn [proposed warnings]. split.
  - destruct (detect_measures KB full); [destruct Hhit | reflexivity].
  - rewrite (detect_construct_labels_mem set_list KB full _ _ lbl Hc); auto.
    + pose proof (ops_mem _ _ Hhit []) as Hops. cbn [measure] in Hops.
      rewrite Hops. simpl. eexists. split; [reflexivity | now left].
    + apply in_or_app. now left.
Qed.

(** C5, as the specification states it, fails in two ways.  A label that
    also holds the phrase of an earlier rule sends the item to that rule:
    "Measures align with the construct definition" is handled by the
    "definition" rule, which here proposes Unclear and returns no warnings
    at all.  And a text that contains "Grit-S" and "self-control" only
    inside longer words matches no alias and no label: the rule proposes
    No, without warning. *)
Lemma jingle_warning_counterexample :
  (let citem := Sample.item "Measures align with the construct definition" None in
   let full := Sample.doc_jingle in
   let result :=
     propose_construct_score Sample.identity Sample.KB citem (sectionize full) full in
   label_has "measures align" (label citem) = true /\
   whole_word (lit "Grit-S") full /\ whole_word (lit "self-control") full /\
   proposed result = Unclear /\ warnings result = None) /\
  (let citem := Sample.item "Measures align with the construct" None in
   let full := lit "Grit-Scale items asked about self-controlled behaviour." in
   let result :=
     propose_construct_score Sample.identity Sample.KB citem (sectionize full) full in
   Str.contains (lit "Grit-S") full = true /\
   Str.contains (lit "self-control") full = true /\
   result = mkproposal No [] (Some [])).
Proof.
  split.
  - cbv zeta. split; [reflexivity|]. split; [|split].
    + exists (lit "We measured self-control with the "), (lit "."). now vm_compute.
    + exists (lit "We measured "), (lit " with the Grit-S."). now vm_compute.
    + vm_compute. now split.
  - vm_compute. repeat split.
Qed.

(** C5 (amended): for an addendum item whose label contains "measures
    align" and none of the phrases "definition", "subcomponents" and
    "model/theory" of the rules tried before, if the knowledge base has a
    measure "GritS" with the alias "Grit-S" and a construct "self-control",
    and the full text contains "Grit-S" and a canonical label of that
    construct as whole words, then the proposal is Yes and its warnings
    include the jingle-risk warning. *)
Theorem jingle_warning (set_list : list str -> list str) (KB : knowledge_base)
        (citem : checklist_item) (sections : Dict.t str) (full : str)
        (mnode : measure_node) (cnode : construct_node) (lbl : str) :
  dispatch construct_phrases (label citem) = Some "measures align" ->
  In (lit "GritS", mnode) (measures KB) ->
  In (lit "Grit-S") (aliases mnode) ->
  whole_word (lit "Grit-S") full ->
  In (lit "self-control", cnode) (constructs KB) ->
  In lbl (canonical cnode) ->
  whole_word lbl full ->
  let result := propose_construct_score set_list KB citem sections full in
  proposed result = Yes /\
  exists warn, warnings result = Some warn /\ In WARN_JINGLE warn.
Proof.
  intros H Hm Ha Hfa Hc Hl Hfl.
  apply measures_align_detected with mnode cnode lbl; auto using whole_word_found.
Qed.

Lemma jingle_warning_witness :
  let result :=
    propose_construct_score Sample.identity Sample.KB
                            (Sample.item "Measures align with the construct" None)
                            (sectionize Sample.doc_jingle) Sample.doc_jingle in
  proposed result = Yes /\
  exists warn, warnings result = Some warn /\ In WARN_JINGLE warn.
Proof.
  apply (@jingle_warning Sample.identity Sample.KB
           (Sample.item "Measures align with the construct" None)
           (sectionize Sample.doc_jingle) Sample.doc_jingle
           (mkmeasure [lit "Short Grit Scale"; lit "Grit-S"] (lit "self-report")
                      [lit "grit"; lit "self-control"])
           (mkconstruct [lit "self-control"; lit "self control"] [lit "willpower"]
                        [lit "inhibition"])
           (lit "self-control")).
  - reflexivity.
  - simpl. tauto.
  - simpl. tauto.
  - exists (lit "We measured self-control with the "), (lit "."). now vm_compute.
  - simpl. tauto.
  - simpl. tauto.
  - exists (lit "We measured "), (lit " with the Grit-S."). now vm_compute.
Defined.

(** C6, as the specification states it, fails for a label that also holds
    the phrase of an earlier rule: the same item is handled by the
    "definition" rule and is scored Unclear, not No, without a warnings
    entry. *)
Lemma no_measure_counterexample :
  let citem := Sample.item "Measures align with the construct definition" None in
  let full := Sample.doc_observed in
  let result :=
    propose_construct_score Sample.identity Sample.KB citem (sectionize full) full in
  label_has "measures align" (label citem) = true /\
  detect_measures Sample.KB full = [] /\
  result = mkproposal Unclear [] None.
Proof. vm_compute. repeat split. Qed.

(** C6 (amended): for an addendum item whose label contains "measures
    align" and none of the phrases "definition", "subcomponents" and
    "model/theory" of the rules tried before, if no alias of any configured
    measure matches the full text, the proposal is No, with no evidence and
    an empty list of warnings. *)
Theorem no_measure_scores_no (set_list : list str -> list str) (KB : knowledge_base)
        (citem : checklist_item) (sections : Dict.t str) (full : str) :
  dispatch construct_phrases (label citem) = Some "measures align" ->
  (forall mid mnode a,
      In (mid, mnode) (measures KB) -> In a (aliases mnode) ->
      Re.found (word_pattern a) full = false) ->
  propose_construct_score set_list KB citem sections full
    = mkproposal No [] (Some []).
Proof.
  intros H Hnone. label_cases H. unfold propose_construct_score.
  repeat match goal with E : label_has _ _ = _ |- _ => rewrite E; clear E end.
  assert (E : detect_measures KB full = []).
  { unfold detect_measures. revert Hnone.
    induction (measures KB) as [|[mid mnode] ms IH]; intros Hnone; simpl;
      [reflexivity|].
    unfold first_alias at 1. rewrite find_none_all.
    - apply IH. intros mid' mnode' a Hin. apply (Hnone mid'). now right.
    - intros a Ha. apply (Hnone mid mnode); [now left | exact Ha]. }
  rewrite E. simpl. now rewrite andb_false_r.
Qed.

Lemma no_measure_scores_no_witness :
  propose_construct_score Sample.identity Sample.KB
                          (Sample.item "Measures align with the construct" None)
                          (sectionize Sample.doc_observed) Sample.doc_observed
    = mkproposal No [] (Some []).
Proof.
  apply no_measure_scores_no; [reflexivity|].
  intros mid mnode a [E|[E|[]]]; injection E as <- <-;
    intros [<-|[<-|[]]]; vm_compute; reflexivity.
Defined.

(** ** C8: the lines of the article and the buffers of [sectionize] *)

Lemma all_read_get (bufs : Dict.t (list str)) (k : str) (v : list str) :
  all_read bufs = true -> Dict.get bufs k = Some v -> v = [].
Proof.
  intros Hall Hget. apply get_In in Hget.
  unfold all_read in Hall. rewrite forallb_forall in Hall.
  apply Hall in Hget. simpl in Hget. now destruct v.
Qed.

(** Opening a section that has no line yet changes nothing to the reading. *)
Lemma read_back_new_section (t : str) (tags : list str) :
  forall bufs,
    Dict.mem t bufs = false ->
    read_back tags (bufs ++ [(t, [])]) = read_back tags bufs.
Proof.
  induction tags as [|t0 tags IH]; intros bufs Hnew; simpl.
  - unfold all_read. rewrite forallb_app. simpl. now rewrite !andb_true_r.
  - rewrite get_app. destruct (Dict.get bufs t0) as [[|line rest]|] eqn:E.
    + reflexivity.
    + rewrite update_app by (unfold Dict.mem; now rewrite E).
      rewrite IH; [reflexivity|]. now rewrite mem_update.
    + simpl. now destruct (Str.eqb t t0).
Qed.

Lemma read_back_setdefault (t : str) (tags : list str) (bufs : Dict.t (list str)) :
  read_back tags (Dict.setdefault bufs t []) = read_back tags bufs.
Proof.
  unfold Dict.setdefault. destruct (Dict.mem t bufs) eqn:E; [reflexivity|].
  now apply read_back_new_section.
Qed.

(** Appending a line to a buffer appends it to the reading. *)
Lemma read_back_append (t : str) (line : str) (tags : list str) :
  forall bufs lines0,
    Dict.mem t bufs = true ->
    read_back tags bufs = Some lines0 ->
    read_back (tags ++ [t]) (Dict.update bufs t (fun buf => buf ++ [line]))
      = Some (lines0 ++ [line]).
Proof.
  induction tags as [|t0 tags IH]; intros bufs lines0 Hmem H; simpl in *.
  - destruct (all_read bufs) eqn:Hall; [|discriminate]. injection H as <-.
    rewrite get_update_same. unfold Dict.mem in Hmem.
    destruct (Dict.get bufs t) as [v|] eqn:E; [|discriminate].
    rewrite (all_read_get _ _ Hall E). simpl. rewrite update_update.
    unfold all_read. rewrite forallb_update; [reflexivity | exact Hall | reflexivity].
  - destruct (Dict.get bufs t0) as [[|x rest]|] eqn:E; try discriminate.
    destruct (read_back tags (Dict.update bufs t0 (fun _ => rest))) as [lines'|] eqn:E';
      [|discriminate].
    injection H as <-.
    destruct (Str.eqb t t0) eqn:Et.
    + apply Str_eqb_eq in Et. subst t0.
      rewrite get_update_same, E. simpl. rewrite update_update.
      specialize (IH (Dict.update bufs t (fun _ => rest)) lines').
      rewrite update_update in IH. rewrite IH; [reflexivity | | exact E'].
      now rewrite mem_update.
    + apply Str_eqb_neq in Et.
      rewrite get_update_other by exact Et. rewrite E.
      rewrite update_comm by exact Et.
      rewrite (IH _ lines'); [reflexivity | | exact E'].
      now rewrite mem_update.
Qed.

(** One step of the loop: the open section is a key of the buffers, and
    the line read is appended to the reading. *)
Lemma sectionize_step_read_back (st : Dict.t (list str) * str) (line : str)
      (tags lines0 : list str) :
  Dict.mem (snd st) (fst st) = true ->
  read_back tags (fst st) = Some lines0 ->
  let st' := sectionize_step st line in
  Dict.mem (snd st') (fst st') = true /\
  read_back (tags ++ [snd st']) (fst st') = Some (lines0 ++ [line]).
Proof.
  destruct st as [secs current]. cbn [fst snd]. intros Hmem H.
  unfold sectionize_step.
  destruct (Re.search SECTION_HEAD (Str.strip line)) as [m|]; cbn [fst snd].
  - split.
    + rewrite mem_update. apply mem_setdefault.
    + apply read_back_append; [apply mem_setdefault|].
      now rewrite read_back_setdefault.
  - split.
    + now rewrite mem_update.
    + now apply read_back_append.
Qed.

Lemma sectionize_fold_read_back (lines : list str) :
  forall st tags lines0,
    Dict.mem (snd st) (fst st) = true ->
    read_back tags (fst st) = Some lines0 ->
    read_back (tags ++ filing_from st lines) (fst (fold_left sectionize_step lines st))
      = Some (lines0 ++ lines).
Proof.
  induction lines as [|line lines IH]; intros st tags lines0 Hmem H; simpl.
  - now rewrite !app_nil_r.
  - destruct (sectionize_step_read_back st line tags Hmem H) as [Hmem' H'].
    specialize (IH _ _ _ Hmem' H'). rewrite <- !app_assoc in IH. exact IH.
Qed.

Lemma filing_from_length (lines : list str) :
  forall st, length (filing_from st lines) = length lines.
Proof. induction lines as [|l lines IH]; intros st; simpl; auto. Qed.

(** A document of four lines: the second and the fourth line carry a
    heading word, the third is filed under the section the second opened. *)
Example sectionize_sample :
  let lines := Str.splitlines (lit "Title
METHODS
We asked them.
Main results") in
  filing lines = [lit "Full Text"; lit "Methods"; lit "Methods"; lit "Results"] /\
  sectionize_buffers lines =
    [(lit "Full Text", [lit "Title"]);
     (lit "Methods", [lit "METHODS"; lit "We asked them."]);
     (lit "Results", [lit "Main results"])] /\
  read_back (filing lines) (sectionize_buffers lines) = Some lines /\
  read_back [lit "Results"; lit "Results"] (sectionize_buffers lines) = None.
Proof. vm_compute. repeat split. Qed.

(** The buffers hold, between them, the lines read so far. *)
Lemma concat_update_append (k line : str) (bufs : Dict.t (list str)) :
  Dict.mem k bufs = true ->
  Permutation (concat (map snd (Dict.update bufs k (fun buf => buf ++ [line]))))
              (concat (map snd bufs) ++ [line]).
Proof.
  unfold Dict.mem. induction bufs as [|[k' v] bufs IH]; simpl; [discriminate|].
  destruct (Str.eqb k' k); simpl; intros H.
  - rewrite <- !app_assoc. apply Permutation_app_head. apply Permutation_app_comm.
  - rewrite <- app_assoc. apply Permutation_app_head. now apply IH.
Qed.

Lemma concat_setdefault (k : str) (bufs : Dict.t (list str)) :
  concat (map snd (Dict.setdefault bufs k [])) = concat (map snd bufs).
Proof.
  unfold Dict.setdefault. destruct (Dict.mem k bufs); [reflexivity|].
  rewrite map_app, concat_app. simpl. apply app_nil_r.
Qed.

Lemma sectionize_step_lines (st : Dict.t (list str) * str) (line : str) :
  Dict.mem (snd st) (fst st) = true ->
  let st' := sectionize_step st line in
  Dict.mem (snd st') (fst st') = true /\
  Permutation (concat (map snd (fst st'))) (concat (map snd (fst st)) ++ [line]).
Proof.
  destruct st as [secs current]. cbn [fst snd]. intros Hmem.
  unfold sectionize_step.
  destruct (Re.search SECTION_HEAD (Str.strip line)) as [m|]; cbn [fst snd].
  - split; [rewrite mem_update; apply mem_setdefault|].
    rewrite concat_update_append by apply mem_setdefault.
    now rewrite concat_setdefault.
  - split; [now rewrite mem_update | now apply concat_update_append].
Qed.

Lemma sectionize_fold_lines (lines : list str) :
  forall st,
    Dict.mem (snd st) (fst st) = true ->
    Permutation (concat (map snd (fst (fold_left sectionize_step lines st))))
                (concat (map snd (fst st)) ++ lines).
Proof.
  induction lines as [|line lines IH]; intros st Hmem; simpl.
  - now rewrite app_nil_r.
  - destruct (sectionize_step_lines st line Hmem) as [Hmem' Hperm].
    rewrite (IH _ Hmem'), Hperm. now rewrite <- app_assoc.
Qed.

(** C8: every line of the input is filed under exactly one section, the
    one its heading word opens or else the section open before it; the
    buffers hold between them exactly the lines of the input, and reading
    them back in the order of the lines gives the lines of the input,
    each once and unchanged, and leaves every buffer empty. *)
Theorem sectionize_round_trip (text : str) :
  let lines := Str.splitlines text in
  read_back (filing lines) (sectionize_buffers lines) = Some lines /\
  Permutation (concat (map snd (sectionize_buffers lines))) lines /\
  length (filing lines) = length lines /\
  (forall st line,
      snd (sectionize_step st line) =
      match Re.search SECTION_HEAD (Str.strip line) with
      | Some m => Str.title (group0 m)
      | None => snd st
      end) /\
  sectionize text =
    map (fun kv => (fst kv, Str.join NL (snd kv))) (sectionize_buffers lines).
Proof.
  intros lines. split; [|split; [|split; [|split]]].
  - apply (@sectionize_fold_read_back lines sectionize_init [] []); reflexivity.
  - apply (sectionize_fold_lines lines sectionize_init). reflexivity.
  - apply filing_from_length.
  - intros [secs current] line. unfold sectionize_step.
    now destruct (Re.search SECTION_HEAD (Str.strip line)).
  - reflexivity.
Qed.

(** ** C10: the pipeline is a function of its input *)

Lemma code_inj (x y : ascii) : Char.code x = Char.code y -> x = y.
Proof.
  unfold Char.code. intros H.
  rewrite <- (ascii_nat_embedding x), <- (ascii_nat_embedding y). now rewrite H.
Qed.

Lemma leb_total (a : str) : forall b, Str.leb a b = true \/ Str.leb b a = true.
Proof.
  induction a as [|x a IH]; intros [|y b]; simpl; auto.
  destruct (Nat.ltb_spec (Char.code x) (Char.code y));
    destruct (Nat.ltb_spec (Char.code y) (Char.code x)); auto; try lia.
Qed.

Lemma leb_antisym (a : str) :
  forall b, Str.leb a b = true -> Str.leb b a = true -> a = b.
Proof.
  induction a as [|x a IH]; intros [|y b]; simpl; try discriminate; auto.
  destruct (Nat.ltb_spec (Char.code x) (Char.code y));
    destruct (Nat.ltb_spec (Char.code y) (Char.code x));
    try discriminate; try lia.
  intros H1 H2. f_equal; [apply code_inj; lia | now apply IH].
Qed.

Lemma leb_trans (a : str) :
  forall b c, Str.leb a b = true -> Str.leb b c = true -> Str.leb a c = true.
Proof.
  induction a as [|x a IH]; intros [|y b] [|z c]; simpl; try discriminate; auto.
  destruct (Nat.ltb_spec (Char.code x) (Char.code y));
    destruct (Nat.ltb_spec (Char.code y) (Char.code x));
    destruct (Nat.ltb_spec (Char.code y) (Char.code z));
    destruct (Nat.ltb_spec (Char.code z) (Char.code y));
    destruct (Nat.ltb_spec (Char.code x) (Char.code z));
    destruct (Nat.ltb_spec (Char.code z) (Char.code x));
    try discriminate; try lia; auto.
  apply IH.
Qed.

Lemma leb_false_flip (a b : str) : Str.leb a b = false -> Str.leb b a = true.
Proof. intros H. destruct (leb_total a b) as [E|E]; congruence. Qed.

(** Insertions commute, so [sorted] does not depend on the order in which
    it receives the elements. *)
Lemma insert_sorted_comm (x y : str) (l : list str) :
  insert_sorted x (insert_sorted y l) = insert_sorted y (insert_sorted x l).
Proof.
  induction l as [|h l IH]; simpl.
  - destruct (Str.leb x y) eqn:Exy; destruct (Str.leb y x) eqn:Eyx; try reflexivity.
    + now rewrite (leb_antisym _ _ Exy Eyx).
    + apply leb_false_flip in Exy. congruence.
  - destruct (Str.leb y h) eqn:Eyh; destruct (Str.leb x h) eqn:Exh; simpl;
      rewrite ?Eyh, ?Exh.
    + destruct (Str.leb x y) eqn:Exy; destruct (Str.leb y x) eqn:Eyx; try reflexivity.
      * now rewrite (leb_antisym _ _ Exy Eyx).
      * apply leb_false_flip in Exy. congruence.
    + destruct (Str.leb x y) eqn:Exy; [|reflexivity].
      rewrite (leb_trans _ _ _ Exy Eyh) in Exh. discriminate.
    + destruct (Str.leb y x) eqn:Eyx; [|reflexivity].
      rewrite (leb_trans _ _ _ Eyx Exh) in Eyh. discriminate.
    + now rewrite IH.
Qed.

Lemma sorted_permutation (l1 l2 : list str) :
  Permutation l1 l2 -> sorted l1 = sorted l2.
Proof.
  induction 1 as [|x l1 l2 _ IH|x y l|l1 l2 l3 _ IH1 _ IH2]; simpl.
  - reflexivity.
  - now rewrite IH.
  - apply insert_sorted_comm.
  - congruence.
Qed.

Lemma detect_construct_labels_order (order1 order2 : list str -> list str)
      (KB : knowledge_base) (blob : str) :
  (forall v, Permutation (order1 v) v) ->
  (forall v, Permutation (order2 v) v) ->
  detect_construct_labels order1 KB blob = detect_construct_labels order2 KB blob.
Proof.
  intros H1 H2. unfold detect_construct_labels. apply map_ext.
  intros [k v]. simpl. f_equal. apply sorted_permutation.
  now rewrite H1, H2.
Qed.

Lemma propose_construct_score_order (order1 order2 : list str -> list str)
      (KB : knowledge_base) (citem : checklist_item) (sections : Dict.t str)
      (full : str) :
  (forall v, Permutation (order1 v) v) ->
  (forall v, Permutation (order2 v) v) ->
  propose_construct_score order1 KB citem sections full
    = propose_construct_score order2 KB citem sections full.
Proof.
  intros H1 H2. unfold propose_construct_score.
  now rewrite (detect_construct_labels_order order1 order2 KB full H1 H2).
Qed.

(** C10: the proposals are a function of the article text and of the
    configuration alone.  Nothing the scorers compute is kept from one run
    to the next, and the one thing that may differ between two runs, the
    order in which a set of labels is enumerated, does not reach the
    result because the labels are sorted: two runs on the same text and
    configuration return the same proposals. *)
Theorem pipeline_deterministic (order1 order2 : list str -> list str)
        (AXIS : axis_config) (KB : knowledge_base) (blob : str) :
  (forall v, Permutation (order1 v) v) ->
  (forall v, Permutation (order2 v) v) ->
  run_pipeline order1 AXIS KB blob = run_pipeline order2 AXIS KB blob.
Proof.
  intros H1 H2. unfold run_pipeline. cbv zeta. f_equal.
  apply map_ext. intros citem. f_equal.
  now apply propose_construct_score_order.
Qed.

Lemma pipeline_deterministic_witness :
  run_pipeline Sample.identity Sample.AXIS Sample.KB Sample.doc_willpower
    = run_pipeline Sample.reversed Sample.AXIS Sample.KB Sample.doc_willpower.
Proof.
  apply pipeline_deterministic; intros v.
  - apply Permutation_refl.
  - apply Permutation_sym, Permutation_rev.
Defined.

(** * Further properties of the code *)

(** ** [sentences]: the sentences are trimmed *)

Lemma lstrip_head (s : str) (c : ascii) (r : str) :
  Str.lstrip s = c :: r -> Char.isspace c = false.
Proof.
  induction s as [|x s IH]; simpl; [discriminate|].
  destruct (Char.isspace x) eqn:E; [exact IH|].
  intros H. injection H as <- _. exact E.
Qed.

Lemma lstrip_fixed (s : str) :
  (forall c r, s = c :: r -> Char.isspace c = false) -> Str.lstrip s = s.
Proof.
  destruct s as [|c r]; [reflexivity|]. intros H. simpl.
  now rewrite (H c r eq_refl).
Qed.

Lemma rstrip_idem (s : str) : Str.rstrip (Str.rstrip s) = Str.rstrip s.
Proof.
  induction s as [|c s IH]; [reflexivity|]. simpl.
  destruct (Str.rstrip s) as [|d t] eqn:E.
  - destruct (Char.isspace c) eqn:Ec; simpl; [reflexivity|]. now rewrite Ec.
  - cbn [Str.rstrip]. fold Str.rstrip. cbn [Str.rstrip] in IH. now rewrite IH.
Qed.

Lemma strip_idem (s : str) : Str.strip (Str.strip s) = Str.strip s.
Proof.
  unfold Str.strip. rewrite (@lstrip_fixed (Str.rstrip (Str.lstrip s))).
  - apply rstrip_idem.
  - intros c r E. destruct (rstrip_prefix (Str.lstrip s)) as [t Ht].
    rewrite E in Ht. simpl in Ht. now apply lstrip_head in Ht.
Qed.

(** X1: every sentence [sentences] returns is non-empty and carries no
    white space at either end. *)
Theorem sentences_trimmed (text : str) :
  Forall (fun e => e <> [] /\ Str.strip e = e) (sentences text).
Proof.
  apply Forall_forall. intros e He. split.
  - now apply sentences_verbatim in He.
  - unfold sentences in He. apply in_map_iff in He as (piece & <- & _).
    apply strip_idem.
Qed.

(** ** [sentences]: the normalization of white space *)

Lemma cls_space (y : ascii) : cls_match false [ISpace] y = Char.is_space y.
Proof. unfold cls_match. simpl. apply orb_false_r. Qed.

(** The greedy [\s*] takes the whole run of white space. *)
Lemma ws_star (s : str) :
  forall prev,
    rmatch false (Star (Cls [ISpace])) prev s (fun _ rest => Some rest)
    = Some (skip_spaces s).
Proof.
  induction s as [|y s IH]; intros prev; [reflexivity|].
  specialize (IH (Some y)). cbn [rmatch] in IH.
  cbn [rmatch length skip_spaces].
  rewrite cls_space. destruct (Char.is_space y); [|reflexivity].
  replace (length s <? S (length s)) with true by (symmetry; apply Nat.ltb_lt; lia).
  rewrite IH. reflexivity.
Qed.

Lemma ws_rmatch (s : str) (prev : option ascii) :
  rmatch false (tree WS) prev s (fun _ rest => Some rest) =
  match s with
  | y :: s' => if Char.is_space y then Some (skip_spaces s') else None
  | [] => None
  end.
Proof.
  destruct s as [|y s']; [reflexivity|].
  change (tree WS) with (Seq (Cls [ISpace]) (Star (Cls [ISpace]))).
  cbn [rmatch]. rewrite cls_space. destruct (Char.is_space y); [|reflexivity].
  apply (ws_star s' (Some y)).
Qed.

Lemma skip_spaces_split (s : str) :
  exists sp, s = sp ++ skip_spaces s /\ Forall (fun c => Char.is_space c = true) sp.
Proof.
  induction s as [|c s (sp & Hs & Hsp)]; simpl.
  - now exists [].
  - destruct (Char.is_space c) eqn:E.
    + exists (c :: sp). split; [simpl; now f_equal | now constructor].
    + now exists [].
Qed.

Lemma skip_spaces_idem (s : str) : skip_spaces (skip_spaces s) = skip_spaces s.
Proof.
  induction s as [|c s IH]; simpl; [reflexivity|].
  destruct (Char.is_space c) eqn:E; [exact IH|]. simpl. now rewrite E.
Qed.

Lemma ws_search_none (s : str) :
  forall prev,
    search_at false (tree WS) prev s = None ->
    Forall (fun c => Char.is_space c = false) s.
Proof.
  induction s as [|c s IH]; intros prev H; [constructor|].
  cbn [search_at] in H. rewrite ws_rmatch in H.
  destruct (Char.is_space c) eqn:E; [discriminate|].
  destruct (search_at false (tree WS) (Some c) s) eqn:E'; [discriminate|].
  constructor; [exact E | now apply IH with (Some c)].
Qed.

(** A match of [\s+]: no white space before it, a run of white space, and
    no white space right after it. *)
Lemma ws_search_some (s : str) :
  forall prev m,
    search_at false (tree WS) prev s = Some m ->
    Forall (fun c => Char.is_space c = false) (before m) /\
    (exists y sp, group0 m = y :: sp /\
                  Forall (fun c => Char.is_space c = true) (y :: sp)) /\
    skip_spaces (after m) = after m.
Proof.
  induction s as [|c s IH]; intros prev m H; cbn [search_at] in H;
    rewrite ws_rmatch in H; [discriminate|].
  destruct (Char.is_space c) eqn:E.
  - injection H as <-. cbn [before group0 after].
    split; [constructor|]. split; [|apply skip_spaces_idem].
    destruct (skip_spaces_split s) as (sp & Hs & Hsp).
    exists c, sp. split; [|now constructor].
    pose proof (firstn_app_exact (c :: sp) (skip_spaces s)) as Hf.
    cbn [app] in Hf. rewrite <- Hs in Hf. exact Hf.
  - destruct (search_at false (tree WS) (Some c) s) as [m'|] eqn:E'; [|discriminate].
    injection H as <-. cbn [before group0 after].
    destruct (IH _ _ E') as (Hb & Hg & Ha).
    split; [now constructor|]. now split.
Qed.

Lemma collapse_nospace (s : str) (b : bool) :
  Forall (fun c => Char.is_space c = false) s -> collapse_from b s = s.
Proof.
  intros H. revert b. induction H as [|c s Hc _ IH]; intros b; simpl; [reflexivity|].
  rewrite Hc. now rewrite IH.
Qed.

Lemma collapse_app_nospace (pre t : str) :
  Forall (fun c => Char.is_space c = false) pre ->
  collapse_from false (pre ++ t) = pre ++ collapse_from false t.
Proof.
  induction 1 as [|c pre Hc _ IH]; simpl; [reflexivity|].
  rewrite Hc. now rewrite IH.
Qed.

Lemma collapse_run (sp t : str) :
  Forall (fun c => Char.is_space c = true) sp ->
  collapse_from true (sp ++ t) = collapse_from true t.
Proof.
  induction 1 as [|c sp Hc _ IH]; simpl; [reflexivity|]. now rewrite Hc.
Qed.

Lemma collapse_after_run (t : str) :
  skip_spaces t = t -> collapse_from true t = collapse_from false t.
Proof.
  destruct t as [|c t]; [reflexivity|]. simpl.
  destruct (Char.is_space c) eqn:E; [|reflexivity].
  intros H. pose proof (skip_spaces_split t) as (sp & Hs & _).
  apply (f_equal (@length ascii)) in H. rewrite Hs in H at 2.
  simpl in H. rewrite length_app in H. lia.
Qed.

(** The substitution of [sentences] is the scan [collapse]. *)
Lemma sub_ws_collapse (fuel : nat) :
  forall s prev,
    length s <= fuel ->
    sub_from fuel false (tree WS) (lit " ") prev s = collapse s.
Proof.
  induction fuel as [|fuel IH]; intros s prev Hlen.
  - destruct s; [reflexivity | simpl in Hlen; lia].
  - cbn [sub_from]. destruct (search_at false (tree WS) prev s) as [m|] eqn:E.
    + pose proof (search_at_split _ _ _ _ E) as Hs.
      destruct (ws_search_some _ _ E) as (Hb & (y & sp & Hg & Hsp) & Ha).
      destruct m as [pre g post]. cbn [before group0 after] in *. subst g.
      rewrite IH.
      * rewrite Hs. unfold collapse. rewrite collapse_app_nospace by exact Hb.
        f_equal. inversion Hsp as [|? ? Hy Hsp']; subst.
        change ((y :: sp) ++ post) with (y :: sp ++ post). cbn [collapse_from].
        rewrite Hy. cbn [lit list_ascii_of_string app]. f_equal.
        rewrite collapse_run by exact Hsp'. symmetry. now apply collapse_after_run.
      * rewrite Hs in Hlen. rewrite !length_app in Hlen. simpl in Hlen. lia.
    + symmetry. apply collapse_nospace. now apply ws_search_none with prev.
Qed.

Lemma clean_text_scan (text : str) : clean_text text = collapse text.
Proof. unfold clean_text, Re.sub. now apply sub_ws_collapse. Qed.

Lemma collapse_from_idem (s : str) :
  forall b,
    collapse_from false (collapse_from b s) = collapse_from b s /\
    collapse_from true (collapse_from true s) = collapse_from true s.
Proof.
  induction s as [|c s IH]; intros b; [now split|].
  destruct (IH true) as [_ Ht]. destruct (IH false) as [Hf _].
  simpl. destruct (Char.is_space c) eqn:E.
  - split; [|exact Ht]. destruct b; [apply IH|].
    simpl. now rewrite Ht.
  - simpl. rewrite E. now rewrite Hf.
Qed.

(** X2: the normalization [re.sub(r'\s+', ' ', text)] of [sentences] is
    one scan from left to right that puts a single space for each run of
    white space; normalizing twice changes nothing, so the sentences of a
    text and of its normalized form are the same. *)
Theorem clean_text_collapse (text : str) :
  clean_text text = collapse text /\
  clean_text (clean_text text) = clean_text text /\
  sentences (clean_text text) = sentences text.
Proof.
  assert (H : clean_text (clean_text text) = clean_text text).
  { rewrite !clean_text_scan. apply collapse_from_idem. }
  split; [apply clean_text_scan|]. split; [exact H|].
  unfold sentences. now rewrite H.
Qed.

Lemma collapse_spaces_only (s : str) :
  forall b,
    Forall (fun c => Char.is_space c = true -> c = " "%char) (collapse_from b s).
Proof.
  induction s as [|x s IH]; intros b; simpl; [constructor|].
  destruct (Char.is_space x) eqn:E.
  - destruct b; [apply IH|]. constructor; [reflexivity | apply IH].
  - constructor; [congruence | apply IH].
Qed.

Lemma collapse_true_head (s : str) (c : ascii) (t : str) :
  collapse_from true s = c :: t -> Char.is_space c = false.
Proof.
  induction s as [|x s IH]; simpl; [discriminate|].
  destruct (Char.is_space x) eqn:E; [exact IH|].
  intros H. injection H as <- _. exact E.
Qed.

Lemma collapse_no_run (s : str) :
  forall b pre c d post,
    collapse_from b s = pre ++ c :: d :: post ->
    Char.is_space c = true -> Char.is_space d = false.
Proof.
  induction s as [|x s IH]; intros b pre c d post H Hc; simpl in H.
  - now destruct pre.
  - destruct (Char.is_space x) eqn:E.
    + destruct b; [now apply (IH true pre c d post)|].
      destruct pre as [|p pre]; simpl in H; injection H as _ H.
      * now apply collapse_true_head in H.
      * now apply (IH true pre c d post).
    + destruct pre as [|p pre]; simpl in H; injection H as Hx H.
      * congruence.
      * now apply (IH false pre c d post).
Qed.

(** X3: inside a sentence the only character of the class [\s] of the
    regex engine is the single space: a sentence holds no tab, line feed,
    vertical tab, form feed or carriage return, and never two characters
    of that class in a row.  The separators FS, GS, RS and US, which
    [str.strip] and [str.splitlines] count as white space and as line
    boundaries, are not in the class and stay in a sentence as they are,
    even two in a row. *)
Theorem sentences_single_spaces (text : str) :
  Forall (fun e =>
            Forall (fun c => Char.is_space c = true -> c = " "%char) e /\
            (forall pre c d post,
                e = pre ++ c :: d :: post ->
                Char.is_space c = true -> Char.is_space d = false))
         (sentences text) /\
  (forall c, In (Char.code c) [28; 29; 30; 31] ->
             Char.is_space c = false /\
             sentences ("a"%char :: c :: c :: lit "b") = ["a"%char :: c :: c :: lit "b"]).
Proof.
  split.
  - apply Forall_forall. intros e He.
    apply sentences_verbatim in He as [(a & z & Hclean) _].
    rewrite clean_text_scan in Hclean. split.
    + pose proof (collapse_spaces_only text false) as H. fold (collapse text) in H.
      rewrite Hclean in H. apply Forall_app in H as [_ H].
      now apply Forall_app in H as [H _].
    + intros pre c d post He. subst e.
      apply (collapse_no_run text false (a ++ pre) c d (post ++ z)).
      fold (collapse text). rewrite Hclean. rewrite <- !app_assoc. reflexivity.
  - intros c Hc.
    assert (E : c = ascii_of_nat (Char.code c))
      by (unfold Char.code; now rewrite ascii_nat_embedding).
    cbn [In] in Hc.
    destruct Hc as [Hc|[Hc|[Hc|[Hc|[]]]]]; rewrite E, <- Hc;
      split; vm_compute; reflexivity.
Qed.

(** ** [find_hits] *)

Lemma firstn_short {A : Type} (n : nat) (l : list A) :
  length (firstn n l) < n -> firstn n l = l.
Proof.
  revert l; induction n as [|n IH]; intros l H; [simpl in H; lia|].
  destruct l as [|x l]; [reflexivity|]. simpl in *. f_equal. apply IH. lia.
Qed.

Lemma find_hits_prefix (blob : str) (p : pattern) (n maxn : nat) :
  n <= maxn -> find_hits blob p n = firstn n (find_hits blob p maxn).
Proof.
  intros H. unfold find_hits. rewrite firstn_firstn.
  now rewrite Nat.min_l by exact H.
Qed.

Lemma find_hits_nonempty (blob : str) (p : pattern) (n m : nat) :
  0 < n -> 0 < m -> find_hits blob p n = [] -> find_hits blob p m = [].
Proof.
  unfold find_hits. intros Hn Hm.
  destruct (filter (fun s => Re.found p s) (sentences blob)) as [|x l].
  - now rewrite !firstn_nil.
  - destruct n; [lia|]. discriminate.
Qed.

(** X4: [find_hits] returns at most [maxn] sentences of the text, each of
    which matches the pattern; a smaller bound returns a prefix of the
    same hits, and when fewer than [maxn] are returned no matching
    sentence has been left out. *)
Theorem find_hits_bounded (blob : str) (p : pattern) (maxn : nat) :
  length (find_hits blob p maxn) <= maxn /\
  Forall (fun e => In e (sentences blob) /\ Re.found p e = true)
         (find_hits blob p maxn) /\
  (forall n, n <= maxn -> find_hits blob p n = firstn n (find_hits blob p maxn)) /\
  (length (find_hits blob p maxn) < maxn ->
   forall e, In e (sentences blob) -> Re.found p e = true ->
             In e (find_hits blob p maxn)).
Proof.
  split; [apply firstn_le_length|].
  split; [apply Forall_forall; intros e; apply find_hits_sentences|].
  split; [intros n; apply find_hits_prefix|].
  unfold find_hits. intros Hlt e He Hm.
  rewrite firstn_short by exact Hlt. apply filter_In. now split.
Qed.

(** ** Dictionaries of sets *)

Lemma get_setdefault_same {V : Type} (d : Dict.t V) (k : str) (v : V) :
  Dict.get (Dict.setdefault d k v) k = Some (Dict.get_or d k v).
Proof.
  unfold Dict.setdefault, Dict.mem, Dict.get_or.
  destruct (Dict.get d k) eqn:E; [exact E|].
  rewrite get_app, E. simpl. now rewrite Str_eqb_refl.
Qed.

Lemma get_setdefault_other {V : Type} (d : Dict.t V) (k k' : str) (v : V) :
  k <> k' -> Dict.get (Dict.setdefault d k v) k' = Dict.get d k'.
Proof.
  intros Hne. unfold Dict.setdefault. destruct (Dict.mem k d); [reflexivity|].
  rewrite get_app. destruct (Dict.get d k'); [reflexivity|]. simpl.
  apply Str_eqb_neq in Hne. now rewrite Hne.
Qed.

Lemma get_map_values {A B : Type} (g : A -> B) (d : Dict.t A) (k : str) :
  Dict.get (map (fun kv => (fst kv, g (snd kv))) d) k = option_map g (Dict.get d k).
Proof.
  induction d as [|[k' v] d IH]; simpl; [reflexivity|].
  now destruct (Str.eqb k' k).
Qed.

Lemma set_mem_In (x : str) (v : list str) : set_mem x v = true <-> In x v.
Proof.
  unfold set_mem. rewrite existsb_exists. split.
  - intros (y & Hy & E). apply Str_eqb_eq in E. now subst.
  - intros H. exists x. split; [exact H | apply Str_eqb_refl].
Qed.

(** Filing [x] under [k]: the step both matchers take. *)
Lemma filed_step (d : Dict.t (list str)) (k x k' x' : str) :
  filed (Dict.update (Dict.setdefault d k []) k (set_add x)) k' x'
  = filed d k' x' || (Str.eqb k k' && Str.eqb x' x).
Proof.
  unfold filed. destruct (Str.eqb k k') eqn:E.
  - apply Str_eqb_eq in E. subst k'.
    rewrite get_update_same, get_setdefault_same. simpl.
    rewrite set_mem_add. unfold Dict.get_or.
    now destruct (Dict.get d k).
  - apply Str_eqb_neq in E.
    rewrite get_update_other, get_setdefault_other by exact E.
    now rewrite orb_false_r.
Qed.

Lemma mem_step (d : Dict.t (list str)) (k x k' : str) :
  Dict.mem k' (Dict.update (Dict.setdefault d k []) k (set_add x))
  = Dict.mem k' d || Str.eqb k k'.
Proof.
  rewrite mem_update. unfold Dict.mem. destruct (Str.eqb k k') eqn:E.
  - apply Str_eqb_eq in E. subst. rewrite get_setdefault_same. now rewrite orb_true_r.
  - apply Str_eqb_neq in E. rewrite get_setdefault_other by exact E.
    now rewrite orb_false_r.
Qed.

Lemma set_add_NoDup (x : str) (v : list str) : NoDup v -> NoDup (set_add x v).
Proof.
  intros H. unfold set_add. destruct (existsb (Str.eqb x) v) eqn:E; [exact H|].
  apply NoDup_app; [exact H | repeat constructor; simpl; tauto |].
  intros y Hy [Exy|[]]. subst y.
  assert (set_mem x v = true) by now apply set_mem_In.
  unfold set_mem in *. congruence.
Qed.

Lemma set_add_nonempty (x : str) (v : list str) : set_add x v <> [].
Proof.
  unfold set_add. destruct (existsb (Str.eqb x) v) eqn:E.
  - destruct v; [discriminate|]. discriminate.
  - destruct v; discriminate.
Qed.

Lemma Forall_update {V : Type} (P : str * V -> Prop) (d : Dict.t V) (k : str)
      (f : V -> V) :
  Forall P d -> (forall v, P (k, f v)) -> Forall P (Dict.update d k f).
Proof.
  intros H HP. induction H as [|[k' v] d Hkv Hd IH]; simpl; [constructor|].
  destruct (Str.eqb k' k) eqn:E.
  - apply Str_eqb_eq in E. subst. constructor; [apply HP | assumption].
  - constructor; assumption.
Qed.

Lemma update_app_absent {V : Type} (d d' : Dict.t V) (k : str) (f : V -> V) :
  Dict.mem k d = false -> Dict.update (d ++ d') k f = d ++ Dict.update d' k f.
Proof.
  unfold Dict.mem. induction d as [|[k' v] d IH]; simpl; [reflexivity|].
  destruct (Str.eqb k' k); [discriminate|]. intros H. now rewrite IH.
Qed.

(** The sets of a dictionary built by filing are non-empty and hold each
    element once. *)
Lemma sets_step (d : Dict.t (list str)) (k x : str) :
  Forall (fun kv => snd kv <> [] /\ NoDup (snd kv)) d ->
  Forall (fun kv => snd kv <> [] /\ NoDup (snd kv))
         (Dict.update (Dict.setdefault d k []) k (set_add x)).
Proof.
  intros H. unfold Dict.setdefault. destruct (Dict.mem k d) eqn:E.
  - induction H as [|[k' v] d [Hne Hnd] Hd IH]; simpl in *; [constructor|].
    unfold Dict.mem in E. simpl in E.
    destruct (Str.eqb k' k) eqn:Ek.
    + constructor; [|assumption]. simpl.
      split; [apply set_add_nonempty | now apply set_add_NoDup].
    + constructor; [now split|]. apply IH. exact E.
  - rewrite update_app_absent by exact E.
    apply Forall_app. split; [exact H|]. simpl. rewrite Str_eqb_refl.
    constructor; [|constructor]. simpl.
    split; [apply set_add_nonempty | apply set_add_NoDup; constructor].
Qed.

(** ** [detect_construct_labels] *)

Section LabelFolds.
Variable blob : str.

Let hit (lbl : str) : bool := Re.found (word_pattern lbl) blob.

Lemma labels_fold_filed (cname : str) (cnode : construct_node) :
  forall found k x,
    filed (detect_labels_of blob found (cname, cnode)) k x
    = filed found k x
      || (Str.eqb cname k
          && existsb (fun lbl => hit lbl && Str.eqb x lbl)
                     (canonical cnode ++ neighbors cnode)).
Proof.
  unfold detect_labels_of, hit. generalize (canonical cnode ++ neighbors cnode).
  intros labels.
  induction labels as [|lbl labels IH]; intros found k x; simpl.
  - now rewrite andb_false_r, orb_false_r.
  - rewrite IH. destruct (Re.found (word_pattern lbl) blob); simpl; [|reflexivity].
    rewrite filed_step. rewrite <- orb_assoc. f_equal.
    now rewrite andb_orb_distrib_r.
Qed.

Lemma labels_fold_mem (cname : str) (cnode : construct_node) :
  forall found k,
    Dict.mem k (detect_labels_of blob found (cname, cnode))
    = Dict.mem k found
      || (Str.eqb cname k && existsb hit (canonical cnode ++ neighbors cnode)).
Proof.
  unfold detect_labels_of, hit. generalize (canonical cnode ++ neighbors cnode).
  intros labels.
  induction labels as [|lbl labels IH]; intros found k; simpl.
  - now rewrite andb_false_r, orb_false_r.
  - rewrite IH. destruct (Re.found (word_pattern lbl) blob); simpl; [|reflexivity].
    rewrite mem_step. rewrite <- orb_assoc. f_equal.
    now destruct (Str.eqb cname k).
Qed.

Lemma labels_fold_sets (cname : str) (cnode : construct_node) :
  forall found,
    Forall (fun kv => snd kv <> [] /\ NoDup (snd kv)) found ->
    Forall (fun kv => snd kv <> [] /\ NoDup (snd kv))
           (detect_labels_of blob found (cname, cnode)).
Proof.
  unfold detect_labels_of. generalize (canonical cnode ++ neighbors cnode).
  intros labels.
  induction labels as [|lbl labels IH]; intros found H; simpl; [exact H|].
  apply IH. destruct (Re.found (word_pattern lbl) blob); [|exact H].
  now apply sets_step.
Qed.

Lemma labels_fold_keys (cname : str) (cnode : construct_node) :
  forall found,
    Dict.keys (detect_labels_of blob found (cname, cnode))
    = if existsb hit (canonical cnode ++ neighbors cnode)
         && negb (Dict.mem cname found)
      then Dict.keys found ++ [cname] else Dict.keys found.
Proof.
  unfold detect_labels_of, hit. generalize (canonical cnode ++ neighbors cnode).
  intros labels.
  induction labels as [|lbl labels IH]; intros found; simpl; [reflexivity|].
  rewrite IH. destruct (Re.found (word_pattern lbl) blob); simpl; [|reflexivity].
  rewrite mem_step, Str_eqb_refl, orb_true_r, andb_false_r.
  rewrite keys_update, keys_setdefault. now destruct (Dict.mem cname found).
Qed.

Lemma constructs_fold_filed (cs : list (str * construct_node)) :
  forall found k x,
    filed (fold_left (detect_labels_of blob) cs found) k x
    = filed found k x
      || existsb (fun ce : str * construct_node =>
                    Str.eqb (fst ce) k
                    && existsb (fun lbl => hit lbl && Str.eqb x lbl)
                               (canonical (snd ce) ++ neighbors (snd ce)))
                 cs.
Proof.
  induction cs as [|[cname cnode] cs IH]; intros found k x;
    cbn [fold_left existsb fst snd].
  - now rewrite orb_false_r.
  - rewrite IH.
    rewrite labels_fold_filed. now rewrite orb_assoc.
Qed.

Lemma constructs_fold_sets (cs : list (str * construct_node)) :
  forall found,
    Forall (fun kv => snd kv <> [] /\ NoDup (snd kv)) found ->
    Forall (fun kv => snd kv <> [] /\ NoDup (snd kv))
           (fold_left (detect_labels_of blob) cs found).
Proof.
  induction cs as [|[cname cnode] cs IH]; intros found H; cbn [fold_left];
    [exact H|].
  apply IH.
  now apply labels_fold_sets.
Qed.

Lemma constructs_fold_keys_NoDup (cs : list (str * construct_node)) :
  forall found,
    NoDup (Dict.keys found) ->
    NoDup (Dict.keys (fold_left (detect_labels_of blob) cs found)).
Proof.
  induction cs as [|[cname cnode] cs IH]; intros found H; cbn [fold_left];
    [exact H|].
  apply IH.
  rewrite labels_fold_keys.
  destruct (existsb hit _ && negb (Dict.mem cname found)) eqn:E; [|exact H].
  apply andb_true_iff in E as [_ E]. apply negb_true_iff in E.
  apply NoDup_app; [exact H | repeat constructor; simpl; tauto |].
  intros y Hy [Ey|[]]. subst y. apply mem_keys in Hy. congruence.
Qed.

Lemma constructs_fold_keys (cs : list (str * construct_node)) :
  forall found,
    NoDup (map fst cs) ->
    (forall k, In k (map fst cs) -> Dict.mem k found = false) ->
    Dict.keys (fold_left (detect_labels_of blob) cs found)
    = Dict.keys found ++ map fst (filter (construct_found blob) cs).
Proof.
  induction cs as [|[cname cnode] cs IH]; intros found Hnd Hnew;
    cbn [fold_left map filter fst].
  - now rewrite app_nil_r.
  - inversion Hnd as [|? ? Hnotin Hnd']; subst.
    assert (Hk : Dict.keys (detect_labels_of blob found (cname, cnode))
                 = Dict.keys found
                   ++ (if construct_found blob (cname, cnode) then [cname] else [])).
    { rewrite labels_fold_keys.
      rewrite (Hnew cname) by now left. unfold construct_found, hit. simpl.
      rewrite andb_true_r.
      destruct (existsb _ _); [reflexivity | now rewrite app_nil_r]. }
    rewrite IH.
    + rewrite Hk, <- app_assoc. f_equal.
      now destruct (construct_found blob (cname, cnode)).
    + exact Hnd'.
    + intros k Hin.
      rewrite labels_fold_mem.
      rewrite (Hnew k) by now right. simpl.
      destruct (Str.eqb cname k) eqn:E; [|reflexivity].
      apply Str_eqb_eq in E. subst. contradiction.
Qed.

End LabelFolds.

Lemma insert_sorted_perm (x : str) (l : list str) :
  Permutation (insert_sorted x l) (x :: l).
Proof.
  induction l as [|y l IH]; simpl; [reflexivity|].
  destruct (Str.leb x y); [reflexivity|].
  rewrite IH. apply perm_swap.
Qed.

Lemma sorted_perm (l : list str) : Permutation (sorted l) l.
Proof.
  induction l as [|x l IH]; simpl; [reflexivity|].
  rewrite insert_sorted_perm. now constructor.
Qed.

Lemma insert_sorted_ordered (x : str) (l : list str) :
  StronglySorted (fun a b => Str.leb a b = true) l ->
  StronglySorted (fun a b => Str.leb a b = true) (insert_sorted x l).
Proof.
  induction 1 as [|y l Hl IH Hy]; simpl; [repeat constructor|].
  destruct (Str.leb x y) eqn:E.
  - constructor; [now constructor|]. constructor; [exact E|].
    rewrite Forall_forall in *. intros z Hz. apply leb_trans with y; auto.
  - constructor; [exact IH|].
    rewrite Forall_forall in *. intros z Hz.
    apply (Permutation_in _ (insert_sorted_perm x l)) in Hz.
    destruct Hz as [<-|Hz]; [now apply leb_false_flip | auto].
Qed.

Lemma sorted_ordered (l : list str) :
  StronglySorted (fun a b => Str.leb a b = true) (sorted l).
Proof.
  induction l as [|x l IH]; simpl; [constructor | now apply insert_sorted_ordered].
Qed.

Lemma In_sorted_enum (set_list : list str -> list str) (v : list str) (x : str) :
  (forall v, Permutation (set_list v) v) ->
  In x (sorted (set_list v)) <-> set_mem x v = true.
Proof.
  intros Hperm. rewrite set_mem_In. split; intros H.
  - apply (Permutation_in _ (sorted_perm _)) in H.
    now apply (Permutation_in _ (Hperm v)) in H.
  - apply (Permutation_in _ (Permutation_sym (sorted_perm _))).
    now apply (Permutation_in _ (Permutation_sym (Hperm v))).
Qed.

Lemma In_values_filed (set_list : list str -> list str) (d : Dict.t (list str))
      (k x : str) :
  (forall v, Permutation (set_list v) v) ->
  In x (Dict.get_or (map (fun kv => (fst kv, sorted (set_list (snd kv)))) d) k [])
  <-> filed d k x = true.
Proof.
  intros Hperm. unfold Dict.get_or, filed.
  rewrite (get_map_values (fun v => sorted (set_list v))).
  destruct (Dict.get d k) as [v|]; simpl.
  - now apply In_sorted_enum.
  - split; [tauto | discriminate].
Qed.

(** X5: [detect_construct_labels] lists a label under a construct exactly
    when the label is a canonical or neighbor label of that construct in
    the knowledge base and stands in the text as a whole word, case
    ignored. *)
Theorem detect_construct_labels_exact (set_list : list str -> list str)
        (KB : knowledge_base) (blob : str) (k x : str) :
  (forall v, Permutation (set_list v) v) ->
  In x (Dict.get_or (detect_construct_labels set_list KB blob) k [])
  <-> exists cnode,
        In (k, cnode) (constructs KB) /\
        In x (canonical cnode ++ neighbors cnode) /\
        Re.found (word_pattern x) blob = true.
Proof.
  intros Hperm. unfold detect_construct_labels.
  rewrite In_values_filed by exact Hperm.
  rewrite constructs_fold_filed. simpl. rewrite existsb_exists. split.
  - intros ([cname cnode] & Hin & H). simpl in H.
    apply andb_true_iff in H as [Ek H]. apply Str_eqb_eq in Ek. subst cname.
    apply existsb_exists in H as (lbl & Hl & H).
    apply andb_true_iff in H as [Hf El]. apply Str_eqb_eq in El. subst lbl.
    now exists cnode.
  - intros (cnode & Hin & Hl & Hf). exists (k, cnode). split; [exact Hin|].
    simpl. rewrite Str_eqb_refl. simpl. apply existsb_exists.
    exists x. split; [exact Hl|]. now rewrite Hf, Str_eqb_refl.
Qed.

Lemma detect_construct_labels_exact_witness :
  In (lit "willpower")
     (Dict.get_or (detect_construct_labels Sample.identity Sample.KB Sample.doc_willpower)
                  (lit "self-control") []).
Proof.
  apply (detect_construct_labels_exact Sample.identity Sample.KB Sample.doc_willpower
                                       (lit "self-control") (lit "willpower")).
  - intros v. apply Permutation_refl.
  - eexists. split; [left; reflexivity|]. split; [simpl; tauto | now vm_compute].
Defined.

(** X6: the constructs [detect_construct_labels] reports are those with a
    label found in the text, each once and in the order of the knowledge
    base. *)
Theorem detect_construct_labels_keys (set_list : list str -> list str)
        (KB : knowledge_base) (blob : str) :
  NoDup (Dict.keys (constructs KB)) ->
  Dict.keys (detect_construct_labels set_list KB blob)
  = map fst (filter (construct_found blob) (constructs KB)).
Proof.
  intros Hnd. unfold detect_construct_labels, Dict.keys at 1.
  rewrite map_map. cbn [fst].
  change (map (fun x : str * list str => fst x)) with (@Dict.keys (list str)).
  now rewrite constructs_fold_keys.
Qed.

Lemma detect_construct_labels_keys_witness :
  Dict.keys (detect_construct_labels Sample.identity Sample.KB Sample.doc_willpower)
  = [lit "self-control"; lit "grit"].
Proof.
  rewrite (detect_construct_labels_keys Sample.identity Sample.KB Sample.doc_willpower).
  - now vm_compute.
  - vm_compute. repeat constructor; simpl; intuition discriminate.
Defined.

(** X7: in the result of [detect_construct_labels] no construct comes
    twice, and the labels of each construct are at least one, in ascending
    order and without repetition. *)
Theorem detect_construct_labels_sorted (set_list : list str -> list str)
        (KB : knowledge_base) (blob : str) :
  (forall v, Permutation (set_list v) v) ->
  NoDup (Dict.keys (detect_construct_labels set_list KB blob)) /\
  Forall (fun kv =>
            snd kv <> [] /\
            StronglySorted (fun a b => Str.leb a b = true) (snd kv) /\
            NoDup (snd kv))
         (detect_construct_labels set_list KB blob).
Proof.
  intros Hperm. unfold detect_construct_labels. split.
  - unfold Dict.keys at 1. rewrite map_map. cbn [fst].
    apply constructs_fold_keys_NoDup. constructor.
  - apply Forall_map. cbn [snd].
    assert (H : Forall (fun kv : str * list str => snd kv <> [] /\ NoDup (snd kv))
                       (fold_left (detect_labels_of blob) (constructs KB) [])).
    { apply constructs_fold_sets. constructor. }
    eapply Forall_impl; [|exact H].
    intros [k v] [Hne Hnd]. cbn [snd] in *.
    assert (Hp : Permutation (sorted (set_list v)) v).
    { now rewrite sorted_perm. }
    repeat split.
    + intros E. rewrite E in Hp. apply Permutation_nil in Hp. congruence.
    + apply sorted_ordered.
    + apply (Permutation_NoDup (Permutation_sym Hp)). exact Hnd.
Qed.

Lemma detect_construct_labels_sorted_witness :
  NoDup (Dict.keys (detect_construct_labels Sample.reversed Sample.KB
                                            Sample.doc_willpower)).
Proof.
  apply (detect_construct_labels_sorted Sample.reversed Sample.KB Sample.doc_willpower).
  intros v. apply Permutation_sym, Permutation_rev.
Defined.

(** ** [detect_measures] and [map_targets] *)

Lemma first_alias_matches (blob : str) (mnode : measure_node) (mid : str) :
  match first_alias blob mnode with
  | Some _ => measure_matches blob (mid, mnode) = true
  | None => measure_matches blob (mid, mnode) = false
  end.
Proof.
  unfold first_alias, measure_matches. cbn [snd].
  induction (aliases mnode) as [|a l IH]; simpl; [reflexivity|].
  destruct (Re.found (word_pattern a) blob); [reflexivity | exact IH].
Qed.

(** X8: [detect_measures] reports the measures that have an alias found in
    the text, and no other, in the order of the knowledge base; each entry
    carries the type and the targets configured for its measure. *)
Theorem detect_measures_exact (KB : knowledge_base) (blob : str) :
  map measure (detect_measures KB blob)
  = map fst (filter (measure_matches blob) (measures KB)) /\
  Forall (fun h =>
            exists mnode,
              In (measure h, mnode) (measures KB) /\
              hit_type h = type mnode /\ hit_targets h = targets mnode)
         (detect_measures KB blob).
Proof.
  split.
  - unfold detect_measures.
    induction (measures KB) as [|[mid mnode] ms IH]; [reflexivity|].
    cbn [flat_map filter]. rewrite map_app, IH.
    pose proof (first_alias_matches blob mnode mid) as H.
    destruct (first_alias blob mnode); rewrite H; reflexivity.
  - apply Forall_forall. intros h Hh.
    apply detect_measures_ids in Hh as (mnode & Hin & _ & Ht & Hg).
    now exists mnode.
Qed.

Lemma targets_fold_filed (mid : str) (ts : list str) :
  forall buckets k x,
    filed (fold_left
             (fun buckets t =>
                Dict.update (Dict.setdefault buckets t []) t (set_add mid))
             ts buckets) k x
    = filed buckets k x || (existsb (fun t => Str.eqb t k) ts && Str.eqb x mid).
Proof.
  induction ts as [|t ts IH]; intros buckets k x; simpl.
  - now rewrite orb_false_r.
  - rewrite IH, filed_step, <- orb_assoc. f_equal.
    now rewrite andb_orb_distrib_l.
Qed.

Lemma measures_fold_filed (ms : list measure_hit) :
  forall buckets k x,
    filed (fold_left
             (fun buckets m =>
                fold_left
                  (fun buckets t =>
                     Dict.update (Dict.setdefault buckets t []) t (set_add (measure m)))
                  (hit_targets m) buckets)
             ms buckets) k x
    = filed buckets k x
      || existsb (fun m => existsb (fun t => Str.eqb t k) (hit_targets m)
                           && Str.eqb x (measure m)) ms.
Proof.
  induction ms as [|m ms IH]; intros buckets k x; cbn [fold_left existsb].
  - now rewrite orb_false_r.
  - rewrite IH, targets_fold_filed. now rewrite orb_assoc.
Qed.

(** X9: [map_targets] inverts the target lists: a measure id stands under
    a construct name exactly when one of the given measures has that id
    and names the construct among its targets. *)
Theorem map_targets_exact (set_list : list str -> list str)
        (ms : list measure_hit) (t mid : str) :
  (forall v, Permutation (set_list v) v) ->
  In mid (Dict.get_or (map_targets set_list ms) t [])
  <-> exists m, In m ms /\ measure m = mid /\ In t (hit_targets m).
Proof.
  intros Hperm. unfold map_targets.
  rewrite In_values_filed by exact Hperm.
  rewrite measures_fold_filed. simpl. rewrite existsb_exists. split.
  - intros (m & Hin & H). apply andb_true_iff in H as [Ht Em].
    apply Str_eqb_eq in Em. apply existsb_exists in Ht as (t' & Ht' & Et).
    apply Str_eqb_eq in Et. subst. now exists m.
  - intros (m & Hin & <- & Ht). exists m. split; [exact Hin|].
    rewrite Str_eqb_refl, andb_true_r. apply existsb_exists.
    exists t. split; [exact Ht | apply Str_eqb_refl].
Qed.

Lemma map_targets_exact_witness :
  In (lit "GritS")
     (Dict.get_or (map_targets Sample.identity
                               (detect_measures Sample.KB Sample.doc_grit))
                  (lit "self-control") []).
Proof.
  apply (map_targets_exact Sample.identity
                           (detect_measures Sample.KB Sample.doc_grit)
                           (lit "self-control") (lit "GritS")).
  - intros v. apply Permutation_refl.
  - eexists. split; [vm_compute; left; reflexivity|]. split; [reflexivity|].
    simpl. tauto.
Defined.

(** ** Range and coherence of the proposals *)

Lemma find_hits_length (blob : str) (p : pattern) (maxn : nat) :
  length (find_hits blob p maxn) <= maxn.
Proof. unfold find_hits. apply firstn_le_length. Qed.

Lemma yes_or_hits (negative : score) (hits : list str) :
  negative <> Yes ->
  (yes_or negative hits = Yes <-> hits <> []) /\
  (yes_or negative hits = negative <-> hits = []).
Proof.
  intros Hneg. destruct hits; simpl; split; split; intros H;
    try reflexivity; try congruence; try discriminate.
Qed.

Ltac absurd_neq :=
  match goal with H : _ <> _ |- _ => exfalso; apply H; reflexivity end.

Ltac by_conj :=
  repeat match goal with H : _ /\ _ |- _ => destruct H end; congruence.

Ltac axis_rule :=
  match goal with
  | |- context [find_hits ?b ?p 6] =>
      let hits := fresh "hits" in
      let Hlen := fresh "Hlen" in
      pose proof (find_hits_length b p 6) as Hlen;
      set (hits := find_hits b p 6) in *; clearbody hits
  end.

(** X10: whatever the item and the sections, [propose_axis_score] never
    proposes No and never sets warnings; it returns at most six evidence
    sentences; N/A is the answer of the "ethical" rule without evidence
    and of no other case; under every rule but the default one the
    proposal is Yes exactly when there is evidence; the default rule
    proposes Unclear with at most three sentences. *)
Theorem propose_axis_score_coherent (item : checklist_item) (sections : Dict.t str) :
  let r := propose_axis_score item sections in
  warnings r = None /\
  proposed r <> No /\
  length (evidence r) <= 6 /\
  (proposed r = NA <->
   dispatch axis_phrases (label item) = Some "ethical" /\ evidence r = []) /\
  (dispatch axis_phrases (label item) <> None ->
   (proposed r = Yes <-> evidence r <> [])) /\
  (dispatch axis_phrases (label item) = None ->
   proposed r = Unclear /\ length (evidence r) <= 3).
Proof.
  unfold propose_axis_score, dispatch, axis_phrases. cbn [find].
  repeat match goal with
         | |- context [label_has ?p ?l] => destruct (label_has p l)
         end;
    cbv zeta; cbn [warnings proposed evidence];
    try (axis_rule; destruct hits as [|h hits]; cbn [yes_or length] in *;
         repeat split; intros; try discriminate; try congruence; try lia;
         match goal with H : _ /\ _ |- _ => destruct H; congruence end).
  axis_rule. repeat split; intros; try discriminate; try congruence.
  - etransitivity; [apply firstn_le_length | lia].
  - destruct H; discriminate.
  - apply firstn_le_length.
Qed.

Lemma evidence_type_hits (full : str) (p q : pattern) :
  nonempty_list (find_hits full p 6) || nonempty_list (find_hits full q 6) = true
  <-> find_hits full p 3 ++ find_hits full q 3 <> [].
Proof.
  split.
  - intros H E. apply app_eq_nil in E as [Ep Eq].
    apply (@find_hits_nonempty full p 3 6) in Ep; [|lia|lia].
    apply (@find_hits_nonempty full q 3 6) in Eq; [|lia|lia].
    rewrite Ep, Eq in H. discriminate.
  - intros H.
    destruct (find_hits full p 6) eqn:Ep; [|reflexivity].
    destruct (find_hits full q 6) eqn:Eq; [|reflexivity].
    exfalso. apply H.
    apply (@find_hits_nonempty full p 6 3) in Ep; [|lia|lia].
    apply (@find_hits_nonempty full q 6 3) in Eq; [|lia|lia].
    now rewrite Ep, Eq.
Qed.

Lemma evidence_type_length (full : str) (p q : pattern) :
  length (find_hits full p 3 ++ find_hits full q 3) <= 6.
Proof.
  rewrite length_app.
  pose proof (find_hits_length full p 3). pose proof (find_hits_length full q 3). lia.
Qed.

(** X11: the proposals of [propose_construct_score] by rule.  Warnings are
    set by the "measures align" rule and by no other; No is the answer of
    "measures align" without a detected measure and of no other case; N/A
    is the answer of "jingle–jangle" when no construct is detected and no
    boundary phrase is found, and of no other case; under "jingle–jangle"
    the proposal is Yes exactly when a boundary phrase is found in the
    full text, whatever the evidence; under every other rule, the default
    one included, it is Yes exactly when there is evidence; and the rules
    that quote sentences return at most six of them. *)
Theorem propose_construct_score_coherent (set_list : list str -> list str)
        (KB : knowledge_base) (citem : checklist_item) (sections : Dict.t str)
        (full : str) :
  let r := propose_construct_score set_list KB citem sections full in
  let rule := dispatch construct_phrases (label citem) in
  (warnings r <> None <-> rule = Some "measures align") /\
  (proposed r = No <-> rule = Some "measures align" /\ evidence r = []) /\
  (proposed r = NA <->
   rule = Some "jingle–jangle" /\ evidence r = [] /\
   Re.found RE_BOUNDARY full = false) /\
  (rule = Some "jingle–jangle" ->
   (proposed r = Yes <-> Re.found RE_BOUNDARY full = true)) /\
  (rule <> Some "jingle–jangle" -> (proposed r = Yes <-> evidence r <> [])) /\
  (rule <> Some "measures align" -> rule <> Some "jingle–jangle" ->
   length (evidence r) <= 6).
Proof.
  unfold propose_construct_score, dispatch, construct_phrases. cbn [find].
  repeat match goal with
         | |- context [label_has ?p ?l] => destruct (label_has p l)
         end;
    cbv zeta; cbn [warnings proposed evidence];
    try (axis_rule; destruct hits as [|h hits]; cbn [yes_or length] in *;
         repeat split; intros; try discriminate; try congruence; try absurd_neq; try lia;
         match goal with H : _ /\ _ |- _ => destruct H; congruence end).
  - (* measures align *)
    destruct (detect_measures KB full) as [|m ms]; cbn [map];
      repeat split; intros; try discriminate; try congruence; try absurd_neq;
      try by_conj.
  - (* jingle-jangle *)
    destruct (Re.found RE_BOUNDARY full);
      destruct (detect_construct_labels set_list KB full) as [|c cs]; cbn [map];
      repeat split; intros; try discriminate; try congruence; try absurd_neq;
      try by_conj.
  - (* evidence type supports *)
    pose proof (evidence_type_hits full RE_VALIDITY RE_FIT) as Hev.
    pose proof (evidence_type_length full RE_VALIDITY RE_FIT) as Hlen.
    destruct (nonempty_list (find_hits full RE_VALIDITY 6)
              || nonempty_list (find_hits full RE_FIT 6));
      repeat split; intros; try discriminate; try congruence; try absurd_neq; try exact Hlen;
      try by_conj.
    + now apply Hev.
    + exfalso. match goal with H : _ <> [] |- _ => apply Hev in H; discriminate end.
  - (* default *)
    repeat split; intros; try discriminate; try congruence; try absurd_neq; simpl; try lia;
      try by_conj.
Qed.

(** ** The jingle warning *)

Lemma constructs_fold_mem (blob : str) (cs : list (str * construct_node)) :
  forall found k,
    Dict.mem k (fold_left (detect_labels_of blob) cs found)
    = Dict.mem k found
      || existsb (fun ce => Str.eqb (fst ce) k && construct_found blob ce) cs.
Proof.
  induction cs as [|[cname cnode] cs IH]; intros found k; cbn [fold_left existsb].
  - now rewrite orb_false_r.
  - rewrite IH, labels_fold_mem. unfold construct_found. cbn [fst snd].
    now rewrite orb_assoc.
Qed.

Lemma detect_construct_labels_mem_iff (set_list : list str -> list str)
      (KB : knowledge_base) (blob k : str) :
  Dict.mem k (detect_construct_labels set_list KB blob) = true
  <-> exists cnode lbl,
        In (k, cnode) (constructs KB) /\
        In lbl (canonical cnode ++ neighbors cnode) /\
        Re.found (word_pattern lbl) blob = true.
Proof.
  unfold detect_construct_labels.
  rewrite (mem_map_values (fun v => sorted (set_list v))).
  rewrite constructs_fold_mem. simpl. rewrite existsb_exists. split.
  - intros ([cname cnode] & Hin & H). apply andb_true_iff in H as [Ek Hf].
    apply Str_eqb_eq in Ek. cbn [fst] in Ek. subst cname.
    unfold construct_found in Hf. cbn [snd] in Hf.
    apply existsb_exists in Hf as (lbl & Hl & Hf).
    now exists cnode, lbl.
  - intros (cnode & lbl & Hin & Hl & Hf). exists (k, cnode). split; [exact Hin|].
    cbn [fst]. rewrite Str_eqb_refl. unfold construct_found. cbn [snd andb].
    apply existsb_exists. now exists lbl.
Qed.

Lemma ops_mem_iff (ms : list measure_hit) (x : str) :
  forall ops0,
    set_mem x (fold_left (fun ops m => set_add (measure m) ops) ms ops0) = true
    <-> set_mem x ops0 = true \/ exists h, In h ms /\ measure h = x.
Proof.
  induction ms as [|m ms IH]; intros ops0; cbn [fold_left].
  - split; [now left | intros [H | (h & [] & _)]; exact H].
  - rewrite IH, set_mem_add. split.
    + intros [H | (h & Hin & E)].
      * apply orb_true_iff in H as [H | H]; [now left|].
        apply Str_eqb_eq in H. right. exists m. split; [now left | now symmetry].
      * right. exists h. split; [now right | exact E].
    + intros [H | (h & [-> | Hin] & E)].
      * left. now rewrite H.
      * left. subst x. now rewrite Str_eqb_refl, orb_true_r.
      * right. now exists h.
Qed.

Lemma detect_measures_id_iff (KB : knowledge_base) (blob mid : str) :
  (exists h, In h (detect_measures KB blob) /\ measure h = mid)
  <-> exists mnode a,
        In (mid, mnode) (measures KB) /\ In a (aliases mnode) /\
        Re.found (word_pattern a) blob = true.
Proof.
  split.
  - intros (h & Hin & E). apply detect_measures_ids in Hin as (mnode & Hm & Hf & _).
    subst mid. unfold first_alias in Hf. apply find_some in Hf as [Ha Hf].
    now exists mnode, (alias h).
  - intros (mnode & a & Hm & Ha & Hf).
    destruct (find_exists (fun a => Re.found (word_pattern a) blob) _ _ Ha Hf) as [b E].
    exists (mkhit mid b (type mnode) (targets mnode)). split; [|reflexivity].
    now apply detect_measures_In.
Qed.

(** X12: under the "measures align" rule the warnings are the empty list
    or the single jingle warning, and the warning is raised exactly when
    the full text holds, as whole words and whatever the case, a canonical
    or neighbor label of a construct named "self-control" and an alias of
    a measure with id "GritS". *)
Theorem jingle_warning_exact (set_list : list str -> list str) (KB : knowledge_base)
        (citem : checklist_item) (sections : Dict.t str) (full : str) :
  dispatch construct_phrases (label citem) = Some "measures align" ->
  let r := propose_construct_score set_list KB citem sections full in
  (warnings r = Some [] \/ warnings r = Some [WARN_JINGLE]) /\
  (warnings r = Some [WARN_JINGLE] <->
   (exists cnode lbl,
      In (lit "self-control", cnode) (constructs KB) /\
      In lbl (canonical cnode ++ neighbors cnode) /\
      Re.found (word_pattern lbl) full = true) /\
   (exists mnode a,
      In (lit "GritS", mnode) (measures KB) /\ In a (aliases mnode) /\
      Re.found (word_pattern a) full = true)).
Proof.
  intros H r. subst r. label_cases H. unfold propose_construct_score.
  repeat match goal with E : label_has _ _ = _ |- _ => rewrite E; clear E end.
  cbn [warnings].
  rewrite <- detect_construct_labels_mem_iff with (set_list := set_list).
  rewrite <- detect_measures_id_iff.
  pose proof (ops_mem_iff (detect_measures KB full) (lit "GritS") []) as Hops.
  destruct (Dict.mem (lit "self-control") (detect_construct_labels set_list KB full));
    destruct (set_mem (lit "GritS")
                (fold_left (fun ops m => set_add (measure m) ops)
                           (detect_measures KB full) []));
    cbn [andb]; (split; [auto|]); split; intros H'; try discriminate H';
    try reflexivity.
  - split; [reflexivity|]. destruct (proj1 Hops eq_refl) as [F | Hex];
      [discriminate F | exact Hex].
  - destruct H' as [_ Hex]. enough (false = true) by discriminate.
    apply Hops. now right.
  - destruct H' as [F _]. discriminate F.
  - destruct H' as [F _]. discriminate F.
Qed.

Lemma jingle_warning_exact_witness :
  warnings (propose_construct_score Sample.identity Sample.KB
              (Sample.item "Measures align with construct" None)
              (sectionize Sample.doc_grit) Sample.doc_grit)
  = Some [WARN_JINGLE].
Proof.
  assert (Hrule : dispatch construct_phrases
                    (label (Sample.item "Measures align with construct" None))
                  = Some "measures align") by (vm_compute; reflexivity).
  apply (proj2 (jingle_warning_exact Sample.identity Sample.KB
                  (Sample.item "Measures align with construct" None)
                  (sectionize Sample.doc_grit) Sample.doc_grit Hrule)).
  split.
  - exists (mkconstruct [lit "self-control"; lit "self control"] [lit "willpower"]
                        [lit "inhibition"]), (lit "self-control").
    split; [left; reflexivity|]. split; [left; reflexivity|].
    vm_compute. reflexivity.
  - exists (mkmeasure [lit "Short Grit Scale"; lit "Grit-S"] (lit "self-report")
                      [lit "grit"; lit "self-control"]), (lit "Grit-S").
    split; [right; left; reflexivity|]. split; [right; left; reflexivity|].
    vm_compute. reflexivity.
Defined.

(** ** The sections of [sectionize] *)

Lemma sectionize_step_heading (st : Dict.t (list str) * str) (line : str) :
  sectionize_step st line
  = match heading_of line with
    | Some k =>
        (Dict.update (Dict.setdefault (fst st) k []) k (fun buf => buf ++ [line]), k)
    | None => (Dict.update (fst st) (snd st) (fun buf => buf ++ [line]), snd st)
    end.
Proof.
  destruct st as [secs current]. unfold sectionize_step, heading_of.
  now destruct (Re.search SECTION_HEAD (Str.strip line)).
Qed.










Lemma heading_not_full_text (line k : str) :
  heading_of line = Some k -> k <> lit "Full Text".
Proof.
  unfold heading_of. destruct (Re.search SECTION_HEAD (Str.strip line)) eqn:E;
    [|discriminate].
  intros [= <-] Hk. apply section_head_title in E. rewrite Hk in E.
  apply (in_map (Str.eqb (lit "Full Text"))) in E.
  vm_compute in E. intuition discriminate.
Qed.

Lemma heading_nonempty (line k : str) : heading_of line = Some k -> line <> [].
Proof. intros H ->. vm_compute in H. discriminate. Qed.

Lemma sectionize_fold_full_text (lines : list str) :
  forall st buf,
    Dict.get (fst st) (lit "Full Text") = Some buf ->
    Dict.get (fst (fold_left sectionize_step lines st)) (lit "Full Text")
    = Some (if Str.eqb (snd st) (lit "Full Text") then buf ++ preamble lines else buf).
Proof.
  induction lines as [|line lines IH]; intros st buf Hget; cbn [fold_left preamble].
  - rewrite Hget. destruct (Str.eqb (snd st) (lit "Full Text"));
      [now rewrite app_nil_r | reflexivity].
  - pose proof (sectionize_step_heading st line) as Hstep.
    destruct (heading_of line) as [k|] eqn:Hk.
    + pose proof (heading_not_full_text _ Hk) as Hne.
      rewrite (IH (sectionize_step st line) buf).
      * rewrite Hstep. cbn [snd].
        apply Str_eqb_neq in Hne. rewrite Hne.
        destruct (Str.eqb (snd st) (lit "Full Text"));
          [now rewrite app_nil_r | reflexivity].
      * rewrite Hstep. cbn [fst].
        rewrite get_update_other by exact Hne.
        now rewrite get_setdefault_other by exact Hne.
    + destruct (Str.eqb (snd st) (lit "Full Text")) eqn:Ecur.
      * apply Str_eqb_eq in Ecur.
        rewrite (IH (sectionize_step st line) (buf ++ [line])).
        -- rewrite Hstep. cbn [snd]. rewrite Ecur, Str_eqb_refl.
           now rewrite <- app_assoc.
        -- rewrite Hstep. cbn [fst]. rewrite Ecur, get_update_same, Hget.
           reflexivity.
      * rewrite (IH (sectionize_step st line) buf).
        -- rewrite Hstep. cbn [snd]. now rewrite Ecur.
        -- rewrite Hstep. cbn [fst]. apply Str_eqb_neq in Ecur.
           now rewrite get_update_other by exact Ecur.
Qed.

Lemma sectionize_fold_no_heading (lines : list str) :
  headings lines = [] ->
  forall buf,
    fold_left sectionize_step lines ([(lit "Full Text", buf)], lit "Full Text")
    = ([(lit "Full Text", buf ++ lines)], lit "Full Text").
Proof.
  unfold headings.
  induction lines as [|line lines IH]; intros H buf; cbn [fold_left flat_map] in *.
  - now rewrite app_nil_r.
  - rewrite sectionize_step_heading.
    destruct (heading_of line); [discriminate H|]. cbn [app] in H.
    cbn [fst snd]. simpl Dict.update. rewrite (IH H).
    now rewrite <- app_assoc.
Qed.

Lemma full_text_section (text : str) :
  section (sectionize text) "Full Text"
  = Str.join NL (preamble (Str.splitlines text)).
Proof.
  unfold section, Dict.get_or, sectionize.
  rewrite (get_map_values (Str.join NL)). unfold sectionize_buffers.
  rewrite (@sectionize_fold_full_text (Str.splitlines text) sectionize_init [])
    by reflexivity.
  reflexivity.
Qed.

(** X14: the "Full Text" section of [sectionize] holds the lines that come
    before the first heading, and no other line: it is the whole text only
    when the text has no heading, in which case it is the only section. *)
Theorem sectionize_full_text (text : str) :
  let lines := Str.splitlines text in
  section (sectionize text) "Full Text" = Str.join NL (preamble lines) /\
  (headings lines = [] ->
   sectionize text = [(lit "Full Text", Str.join NL lines)]) /\
  (headings lines <> [] -> preamble lines <> lines).
Proof.
  intros lines. split; [|split].
  - apply full_text_section.
  - intros H. unfold sectionize, sectionize_buffers, sectionize_init.
    fold lines. now rewrite (@sectionize_fold_no_heading lines H []).
  - unfold headings. induction lines as [|line rest IH]; cbn [flat_map preamble].
    + intros H. now elim H.
    + destruct (heading_of line); [discriminate|].
      intros H E. apply IH; [exact H | congruence].
Qed.

Lemma sectionize_full_text_witness :
  sectionize Sample.doc_plain
  = [(lit "Full Text", Str.join NL (Str.splitlines Sample.doc_plain))].
Proof.
  apply (proj1 (proj2 (sectionize_full_text Sample.doc_plain))).
  vm_compute. reflexivity.
Defined.

Lemma Forall_update_pres {V : Type} (P : str * V -> Prop) (d : Dict.t V) (k : str)
      (f : V -> V) :
  Forall P d -> (forall v, P (k, v) -> P (k, f v)) -> Forall P (Dict.update d k f).
Proof.
  intros H HP. induction H as [|[k' v] d Hkv Hd IH]; simpl; [constructor|].
  destruct (Str.eqb k' k) eqn:E.
  - apply Str_eqb_eq in E. subst. constructor; [now apply HP | assumption].
  - constructor; assumption.
Qed.

Section SectionHeads.
Variable Q : str -> Prop.

(** A buffer other than "Full Text" starts with a line that holds its
    heading. *)
Let opened (kv : str * list str) : Prop :=
  fst kv = lit "Full Text" \/
  exists line rest, snd kv = line :: rest /\ heading_of line = Some (fst kv) /\ Q line.

Lemma opened_append (k : str) (buf : list str) (line : str) :
  opened (k, buf) -> opened (k, buf ++ [line]).
Proof.
  intros [H | (l & rest & E & Hl & Hq)]; [now left|]. right.
  cbn [fst snd] in *. subst buf. now exists l, (rest ++ [line]).
Qed.

Lemma sectionize_step_opened (st : Dict.t (list str) * str) (line : str) :
  Q line -> Forall opened (fst st) -> Forall opened (fst (sectionize_step st line)).
Proof.
  intros Hq H. rewrite sectionize_step_heading.
  destruct (heading_of line) as [k|] eqn:Hk; cbn [fst].
  - unfold Dict.setdefault. destruct (Dict.mem k (fst st)) eqn:E.
    + apply Forall_update_pres; [exact H|]. intros v. apply opened_append.
    + rewrite update_app_absent by exact E.
      apply Forall_app. split; [exact H|]. simpl. rewrite Str_eqb_refl.
      constructor; [|constructor]. right. now exists line, [].
  - apply Forall_update_pres; [exact H|]. intros v. apply opened_append.
Qed.

Lemma sectionize_fold_opened (lines : list str) :
  Forall Q lines ->
  forall st,
    Forall opened (fst st) -> Forall opened (fst (fold_left sectionize_step lines st)).
Proof.
  induction 1 as [|line lines Hq Hqs IH]; intros st H; cbn [fold_left]; [exact H|].
  apply IH. now apply sectionize_step_opened.
Qed.

Lemma sectionize_buffers_opened (lines : list str) :
  Forall Q lines ->
  Forall (fun kv : str * list str =>
            fst kv = lit "Full Text" \/
            exists line rest,
              snd kv = line :: rest /\ heading_of line = Some (fst kv) /\ Q line)
         (sectionize_buffers lines).
Proof.
  intros H. unfold sectionize_buffers.
  apply (sectionize_fold_opened H). constructor; [|constructor]. now left.
Qed.

End SectionHeads.

Lemma join_cons_nonempty (sep line : str) (rest : list str) :
  line <> [] -> Str.join sep (line :: rest) <> [].
Proof.
  intros H. destruct rest; cbn [Str.join]; [exact H|].
  destruct line; [now elim H | discriminate].
Qed.

(** X15: every section of [sectionize] other than "Full Text" begins with
    a line of the text that holds the heading the section is named after,
    so that no such section is empty; the lines that follow are the rest
    of its buffer. *)
Theorem sectionize_section_heads (text k s : str) :
  In (k, s) (sectionize text) ->
  k <> lit "Full Text" ->
  s <> [] /\
  exists line rest,
    In line (Str.splitlines text) /\ heading_of line = Some k /\
    s = Str.join NL (line :: rest).
Proof.
  intros Hin Hk. unfold sectionize in Hin.
  apply in_map_iff in Hin as ([k' buf] & E & Hin). cbn [fst snd] in E.
  injection E as -> <-.
  pose proof (@sectionize_buffers_opened (fun l => In l (Str.splitlines text))
                (Str.splitlines text)) as H.
  assert (Hall : Forall (fun l => In l (Str.splitlines text)) (Str.splitlines text))
    by (apply Forall_forall; auto).
  apply H in Hall. rewrite Forall_forall in Hall. specialize (Hall _ Hin).
  clear H. rename Hall into H.
  cbn [fst snd] in H. destruct H as [H | (line & rest & -> & Hh & Hl)]; [contradiction|].
  split.
  - apply join_cons_nonempty. exact (heading_nonempty Hh).
  - now exists line, rest.
Qed.

Lemma sectionize_section_heads_witness :
  lit "Methods
We ran a survey." <> [] /\
  exists line rest,
    In line (Str.splitlines Sample.doc_sections) /\
    heading_of line = Some (lit "Methods") /\
    lit "Methods
We ran a survey." = Str.join NL (line :: rest).
Proof.
  apply (@sectionize_section_heads Sample.doc_sections (lit "Methods")).
  - vm_compute. right. left. reflexivity.
  - discriminate.
Defined.

(** ** The scorers on the sections of [sectionize] *)

Lemma filter_all_In {A : Type} (p : A -> bool) (l : list A) :
  (forall x, In x l -> p x = true) -> filter p l = l.
Proof.
  induction l as [|x l IH]; intros H; simpl; [reflexivity|].
  rewrite (H x) by now left. f_equal. apply IH. intros y Hy. apply H. now right.
Qed.

Lemma sentence_head (text e : str) :
  In e (sentences text) -> exists c t, e = c :: t /\ Char.isspace c = false.
Proof.
  intros He. pose proof (sentences_verbatim _ _ He) as [_ Hne].
  unfold sentences in He. apply in_map_iff in He as (piece & <- & _).
  destruct (Str.strip piece) as [|c t] eqn:E; [now elim Hne|].
  exists c, t. split; [reflexivity|]. unfold Str.strip in E.
  destruct (rstrip_prefix (Str.lstrip piece)) as [z Hz].
  rewrite E in Hz. simpl in Hz. now apply lstrip_head in Hz.
Qed.

Lemma not_space_not_newline (c : ascii) :
  Char.isspace c = false -> (Char.code c =? 10) = false.
Proof.
  destruct c as [[] [] [] [] [] [] [] []]; vm_compute; congruence.
Qed.

(** The pattern [.] is found in every sentence. *)
Lemma any_found (text e : str) : In e (sentences text) -> Re.found RE_ANY e = true.
Proof.
  intros He. apply sentence_head in He as (c & t & -> & Hc).
  apply not_space_not_newline in Hc.
  unfold Re.found, Re.search, RE_ANY. cbn [tree ignorecase search_at rmatch].
  now rewrite Hc.
Qed.

(** X16: in the pipeline, an AXIS item whose hint resolves to no text and
    which is handled by the "aims" rule or by the default rule is scored on
    the lines before the first heading only, since these are what the
    section "Full Text" holds: when the first line of the article holds a
    heading the proposal is Unclear without evidence, whatever follows. *)
Theorem unhinted_item_reads_preamble (item : checklist_item) (blob : str) :
  hint_text item (sectionize blob) = [] ->
  let before := Str.join NL (preamble (Str.splitlines blob)) in
  let r := propose_axis_score item (sectionize blob) in
  (dispatch axis_phrases (label item) = Some "aims" ->
   evidence r = find_hits before RE_AIMS 6 /\
   proposed r = yes_or Unclear (evidence r)) /\
  (dispatch axis_phrases (label item) = None ->
   evidence r = firstn 3 (sentences before) /\ proposed r = Unclear) /\
  (dispatch axis_phrases (label item) = Some "aims" \/
   dispatch axis_phrases (label item) = None ->
   preamble (Str.splitlines blob) = [] ->
   r = mkproposal Unclear [] None).
Proof.
  intros Hempty before r.
  assert (Haims : dispatch axis_phrases (label item) = Some "aims" ->
                  r = mkproposal (yes_or Unclear (find_hits before RE_AIMS 6))
                                 (find_hits before RE_AIMS 6) None).
  { intros H. subst r before. label_cases H. unfold propose_axis_score.
    rewrite Hempty, full_text_section.
    repeat match goal with E : label_has _ _ = _ |- _ => rewrite E; clear E end.
    reflexivity. }
  assert (Hdef : dispatch axis_phrases (label item) = None ->
                 r = mkproposal Unclear (firstn 3 (sentences before)) None).
  { intros H. subst r before. label_cases H. unfold propose_axis_score.
    rewrite Hempty, full_text_section.
    repeat match goal with E : label_has _ _ = _ |- _ => rewrite E; clear E end.
    cbn [Str.or_else]. f_equal. unfold find_hits.
    rewrite filter_all_In by (intros e He; exact (any_found _ _ He)).
    rewrite firstn_firstn. reflexivity. }
  split; [|split].
  - intros H. rewrite (Haims H). now split.
  - intros H. rewrite (Hdef H). now split.
  - intros [H | H] Hpre.
    + rewrite (Haims H). subst before. rewrite Hpre. reflexivity.
    + rewrite (Hdef H). subst before. rewrite Hpre. reflexivity.
Qed.

Lemma unhinted_item_reads_preamble_witness :
  let r := propose_axis_score (Sample.item "Were the aims clear?" None)
                              (sectionize Sample.doc_sections) in
  evidence r
  = find_hits (Str.join NL (preamble (Str.splitlines Sample.doc_sections))) RE_AIMS 6 /\
  proposed r = yes_or Unclear (evidence r).
Proof.
  assert (Hhint : hint_text (Sample.item "Were the aims clear?" None)
                            (sectionize Sample.doc_sections) = [])
    by reflexivity.
  apply (proj1 (unhinted_item_reads_preamble
                  (Sample.item "Were the aims clear?" None)
                  Sample.doc_sections Hhint)).
  vm_compute. reflexivity.
Defined.
